(** * Editorial front-end: the client-side data layer

    A shallow embedding of the article data layer of the editorial
    front-end (services/api.ts, pages/ArticlesPage.tsx,
    pages/ArticleFormPage.tsx, pages/DashboardPage.tsx,
    pages/CategoriesPage.tsx, pages/NetworksPage.tsx and the test helpers
    mirrored from them),
    followed by the properties the specification states about it.

    Conventions of the embedding.
    - A JavaScript [number] that the code uses as an identifier, a page
      index or a counter is an integer [Z]; [String(n)] is its decimal
      rendering.  Non-integral numbers and NaN are outside the model.
    - A JavaScript string is a [string]; non-ASCII text is carried as its
      UTF-8 bytes, which is enough for equality and concatenation.
    - An optional field ([f?: T]) is an [option]; a field that is declared
      both optional and nullable ([f?: T | null]) is a [Nullable], which
      keeps [undefined] and [null] apart because [String(_)] tells them
      apart.
    - [Record<string, string>] and a [Map] that is only read by key are
      [gmap string _]; a [Map] whose entries are later enumerated keeps
      its insertion order and is an association list ([JsMap]). *)

From stdpp Require Import base decidable option list gmap strings pretty sorting.
From Stdlib Require Import ZArith Lia.

Local Open Scope Z_scope.

(** ** JavaScript primitives *)

Module Js.

(** [number | string], the type of every identifier in types/index.ts. *)
Inductive Id : Type :=
| INum (n : Z)
| IStr (s : string).

#[global] Instance Id_eq_dec : EqDecision Id.
Proof. solve_decision. Defined.

(** [String(n)] for an integral number. *)
Definition String_of_num (n : Z) : string := pretty n.

(** [String(v)] for [v : number | string]. *)
Definition String_of (v : Id) : string :=
  match v with
  | INum n => String_of_num n
  | IStr s => s
  end.

(** Truthiness ([if (v)], [v ? _ : _], [v || _]). *)
Definition truthy_str (s : string) : bool :=
  match s with
  | EmptyString => false
  | String _ _ => true
  end.

Definition truthy_num (n : Z) : bool := negb (n =? 0).

Definition truthy (v : Id) : bool :=
  match v with
  | INum n => truthy_num n
  | IStr s => truthy_str s
  end.

(** [xs.join(sep)] on an array of strings. *)
Fixpoint join (sep : string) (xs : list string) : string :=
  match xs with
  | [] => ""
  | [x] => x
  | x :: rest => x +:+ sep +:+ join sep rest
  end.

(** [T | null | undefined] *)
Inductive Nullable (A : Type) : Type :=
| Undefined
| Null
| Val (a : A).
Arguments Undefined {A}.
Arguments Null {A}.
Arguments Val {A} a.

(** The value when there is one ([x != null]). *)
Definition present {A} (x : Nullable A) : option A :=
  match x with
  | Val a => Some a
  | _ => None
  end.

(** [x ?? d] on an optional value. *)
Definition nullish {A} (x : option A) (d : A) : A := default d x.

(** [String(x)] for [x : number | string | null | undefined]. *)
Definition String_of_nullable (x : Nullable Id) : string :=
  match x with
  | Undefined => "undefined"
  | Null => "null"
  | Val v => String_of v
  end.

(** [s.startsWith(q)] and [s.includes(q)]: [q] occurs in [s] as a
    contiguous run of code units. *)
Fixpoint startsWith (s q : string) {struct q} : bool :=
  match q, s with
  | EmptyString, _ => true
  | String _ _, EmptyString => false
  | String c q', String d s' => if decide (c = d) then startsWith s' q' else false
  end.

Fixpoint includes (s q : string) : bool :=
  startsWith s q ||
  match s with
  | EmptyString => false
  | String _ s' => includes s' q
  end.

(** [Array.prototype.sort(cmp)]: the stable sort that the language
    requires; the comparator's sign decides, and an element moves past
    another only when the comparator is strictly positive.  For a
    consistent comparator every stable sort gives this result. *)
Fixpoint sort_insert {A} (cmp : A → A → Z) (x : A) (l : list A) : list A :=
  match l with
  | [] => [x]
  | y :: l' => if 0 <? cmp x y then y :: sort_insert cmp x l' else x :: y :: l'
  end.

Definition sort_by {A} (cmp : A → A → Z) (l : list A) : list A :=
  foldr (sort_insert cmp) [] l.

(** [x] may stand before [y]: the comparator is not positive. *)
Definition not_after {A} (cmp : A → A → Z) (x y : A) : Prop := cmp x y ≤ 0.

(** Arrays are objects: a heap of arrays addressed by reference, for the
    operations that copy or update in place. *)
Abbreviation Heap A := (list (list A)).
Abbreviation Ref := nat.

Definition deref {A} (h : Heap A) (r : Ref) : list A := default [] (h !! r).

(** [[...xs]]: a fresh array with the same elements. *)
Definition spread {A} (h : Heap A) (r : Ref) : Heap A * Ref :=
  (h ++ [deref h r], length h).

(** [xs.sort(cmp)]: sorts the array [xs] itself and returns it. *)
Definition sort_in_place {A} (cmp : A → A → Z) (h : Heap A) (r : Ref) : Heap A * Ref :=
  (alter (sort_by cmp) r h, r).

(** The string built-ins whose result depends on the host's Unicode and
    locale tables. *)
Class Platform : Type :=
  { toLowerCase : string → string;
    localeCompare : string → string → Z }.

(** [localeCompare] is a consistent comparator: swapping the arguments
    swaps the sign, and "not after" is transitive. *)
Class LocaleOrder `{Platform} : Prop :=
  { localeCompare_flip :
      ∀ a b, Z.sgn (localeCompare a b) = - Z.sgn (localeCompare b a);
    localeCompare_trans :
      ∀ a b c, localeCompare a b ≤ 0 → localeCompare b c ≤ 0 → localeCompare a c ≤ 0 }.

End Js.

(** ** types/index.ts *)

Module Category.
Record t : Type := mk
  { id : Js.Id;
    name : string;
    color : option string }.
End Category.

Module Network.
Record t : Type := mk
  { id : Js.Id;
    name : string }.
End Network.

Module Article.
(** [status] is a string at run time (the value comes from a JSON
    response); [ArticleStatus] below is the invariant of the data
    model.  [content] is declared [string] but read through [?.] by the
    filter, hence an [option]. *)
Record t : Type := mk
  { id : Js.Id;
    title : string;
    content : option string;
    status : string;
    featured : bool;
    categoryId : Js.Nullable Js.Id;
    categoryIds : option (list Js.Id);
    networkId : Js.Nullable Js.Id;
    network : Js.Nullable Network.t;
    createdAt : option string }.

(** [type ArticleStatus = 'draft' | 'published' | 'archived'] *)
Definition ArticleStatus (s : string) : Prop :=
  s = "draft" ∨ s = "published" ∨ s = "archived".
End Article.

Module Notification.
(** The fields of a notification that the dashboard reads. *)
Record t : Type := mk
  { id : Js.Id;
    articleId : Js.Nullable Js.Id;
    sentAt : Js.Nullable string;
    createdAt : option string }.
End Notification.

Inductive SortDir : Type := asc | desc.
Inductive SortCol : Type := col_title | col_createdAt | col_status | col_networkId.

Definition SortDir_str (d : SortDir) : string :=
  match d with asc => "asc" | desc => "desc" end.

Module ArticleQueryParams.
Record t : Type := mk
  { page : option Z;
    limit : option Z;
    search : option string;
    status : option string;
    categoryIds : option (list Js.Id);
    networkId : Js.Nullable Js.Id;
    featured : option bool;
    sortBy : option string;
    sortDir : option SortDir }.

(** [{}]: every field absent. *)
Definition empty : t :=
  mk None None None None None Js.Undefined None None None.
End ArticleQueryParams.

(** ** services/api.ts *)

Module Api.
Import Js.

(** A parsed JSON response body. An object is the list of its own
    properties in insertion order. *)
#[local] Set Warnings "-register-all".
Inductive Json : Type :=
| JNull
| JBool (b : bool)
| JNum (n : Z)
| JStr (s : string)
| JArr (items : list Json)
| JObj (props : list (string * Json)).

(** [obj[key]] on the own properties of an object; [None] is
    [undefined].  When a key is repeated the last binding is the one the
    object holds. *)
Fixpoint get_prop (props : list (string * Json)) (key : string) : option Json :=
  match props with
  | [] => None
  | (k, v) :: rest =>
      match get_prop rest key with
      | Some w => Some w
      | None => if decide (k = key) then Some v else None
      end
  end.

Definition envelope_keys : list string :=
  ["data"; "items"; "results"; "articles"; "categories"; "notifications"; "networks"].

(** The [for (const key of [...])] loop of [toArray]: the first candidate
    key whose value is an array. *)
Fixpoint first_array (props : list (string * Json)) (keys : list string)
  : option (list Json) :=
  match keys with
  | [] => None
  | key :: rest =>
      match get_prop props key with
      | Some (JArr val) => Some val
      | _ => first_array props rest
      end
  end.

(** [toArray]; [data = None] is [undefined].  The second component is
    the diagnostic: [true] when [console.warn] is reached. *)
Definition toArray (data : option Json) : list Json * bool :=
  match data with
  | Some (JArr items) => (items, false)
  | Some (JObj props) =>
      match first_array props envelope_keys with
      | Some val => (val, false)
      | None => ([], true)
      end
  | _ => ([], true)
  end.

(** [if (cond) q[key] = value]: [value] is [None] when the condition
    fails and the assignment is skipped. *)
Definition assign (key : string) (value : option string) (q : gmap string string)
  : gmap string string :=
  match value with
  | Some v => <[key := v]> q
  | None => q
  end.

(** [if (s)] on an optional string: present and non-empty. *)
Definition if_truthy (s : option string) : option string :=
  match s with
  | Some v => if truthy_str v then Some v else None
  | None => None
  end.

(** [buildArticleParams], one line of the source per [let]. *)
Definition buildArticleParams (params : ArticleQueryParams.t) : gmap string string :=
  let q : gmap string string := ∅ in
  let q := assign "page" (String_of_num <$> ArticleQueryParams.page params) q in
  let q := assign "limit" (String_of_num <$> ArticleQueryParams.limit params) q in
  let q := assign "search" (if_truthy (ArticleQueryParams.search params)) q in
  let q := assign "status" (if_truthy (ArticleQueryParams.status params)) q in
  let q := assign "networkId"
             (String_of <$> present (ArticleQueryParams.networkId params)) q in
  let q := assign "featured"
             (match ArticleQueryParams.featured params with
              | Some true => Some "true"
              | _ => None
              end) q in
  let q := assign "sortBy" (if_truthy (ArticleQueryParams.sortBy params)) q in
  let q := assign "sortDir" (SortDir_str <$> ArticleQueryParams.sortDir params) q in
  let q := assign "categoryIds"
             (match ArticleQueryParams.categoryIds params with
              | Some (c :: cs) => Some (join "," (String_of <$> (c :: cs)))
              | _ => None
              end) q in
  q.

Definition param_keys : list string :=
  ["page"; "limit"; "search"; "status"; "networkId"; "featured";
   "sortBy"; "sortDir"; "categoryIds"].

(** What [getArticlesPaginated] returns: the body itself, taken to be a
    paginated response, or a response built around the unwrapped items. *)
Inductive Paginated : Type :=
| AsReceived (props : list (string * Json))
| Built (data : list Json) (total page limit : Z).

(** ['key' in obj] *)
Definition has_prop (props : list (string * Json)) (key : string) : bool :=
  bool_decide (is_Some (get_prop props key)).

(** [getArticlesPaginated], from the response body on. *)
Definition getArticlesPaginated (data : option Json) (params : ArticleQueryParams.t)
  : Paginated :=
  let built :=
    let items := (toArray data).1 in
    Built items (Z.of_nat (length items))
      (nullish (ArticleQueryParams.page params) 1)
      (nullish (ArticleQueryParams.limit params) 20) in
  match data with
  | Some (JObj props) => if has_prop props "data" then AsReceived props else built
  | _ => built
  end.

End Api.

(** The response interceptor of the axios instance. *)

Module Interceptor.
Import Js.

(** What the rejection handler reads of the transport error:
    [error.response.status], [error.response.data.message] and
    [error.message], each possibly missing. *)
Record Response : Type := mkResponse
  { resp_status : Z;
    data_message : option string }.

Record AxiosError : Type := mkAxiosError
  { response : option Response;
    message : option string }.

(** [Error & { status?: number }] *)
Record ApiError : Type := mkApiError
  { err_message : string;
    err_status : option Z }.

Definition fallback_message : string := "Une erreur est survenue".

(** [a || b] on optional strings: [a] when it is truthy. *)
Definition or_else (a : option string) (b : string) : string :=
  match a with
  | Some s => if truthy_str s then s else b
  | None => b
  end.

Definition on_rejected (error : AxiosError) : ApiError :=
  let msg :=
    or_else (response error ≫= data_message)
      (or_else (message error) fallback_message) in
  {| err_message := msg;
     err_status := resp_status <$> response error |}.

End Interceptor.

(** ** A [Map<string, V>] whose entries are enumerated *)

Module JsMap.

Definition t (V : Type) : Type := list (string * V).

Fixpoint get {V} (m : t V) (k : string) : option V :=
  match m with
  | [] => None
  | (k', v) :: rest => if decide (k' = k) then Some v else get rest k
  end.

(** [m.set(k, v)]: an existing key keeps its place, a new key goes last. *)
Fixpoint set {V} (k : string) (v : V) (m : t V) : t V :=
  match m with
  | [] => [(k, v)]
  | (k', v') :: rest =>
      if decide (k' = k) then (k, v) :: rest else (k', v') :: set k v rest
  end.

(** [Array.from(m.entries())] *)
Definition entries {V} (m : t V) : list (string * V) := m.

(** [m.set(k, (m.get(k) ?? 0) + 1)] *)
Definition bump (k : string) (m : t Z) : t Z :=
  set k (Js.nullish (get m k) 0 + 1) m.

End JsMap.

(** ** pages/ArticlesPage.tsx and the helpers of articleFilters.test.ts *)

Module ArticlesPage.
Import Js.

Definition PAGE_SIZE : nat := 20.

(** [new Map(categories.map(c => [String(c.id), c]))]: a later entry
    replaces an earlier one with the same key. *)
Definition buildCategoryMap (categories : list Category.t) : gmap string Category.t :=
  foldl (λ m c, <[String_of (Category.id c) := c]> m) ∅ categories.

(** [article.categoryIds?.map(String) ?? []] *)
Definition ids_of (article : Article.t) : list string :=
  match Article.categoryIds article with
  | Some ids => String_of <$> ids
  | None => []
  end.

Definition resolveCategory (article : Article.t) (catMap : gmap string Category.t)
  : option Category.t :=
  let ids := ids_of article in
  match ids with
  | id0 :: _ => catMap !! id0
  | [] =>
      match Article.categoryId article with
      | Val v => catMap !! String_of v
      | _ => None
      end
  end.

(** The filter and sort state of the page. *)
Record Filters : Type := mkFilters
  { search : string;
    statusFilter : string;
    selectedCats : list Category.t;
    networkFilter : string;
    featuredOnly : bool;
    sortCol : SortCol;
    sortDir : SortDir }.

Section WithPlatform.
Context `{Platform}.

(** [a.title.toLowerCase().includes(q) ||
     a.content?.toLowerCase().includes(q)] *)
Definition matches_search (q : string) (a : Article.t) : bool :=
  includes (toLowerCase (Article.title a)) q ||
  match Article.content a with
  | Some c => includes (toLowerCase c) q
  | None => false
  end.

Definition search_step (search : string) (lst : list Article.t) : list Article.t :=
  if truthy_str search
  then let q := toLowerCase search in filter (λ a, matches_search q a = true) lst
  else lst.

Definition status_step (statusFilter : string) (lst : list Article.t) : list Article.t :=
  if truthy_str statusFilter
  then filter (λ a, Article.status a = statusFilter) lst
  else lst.

Definition matches_cats (ids : gset string) (a : Article.t) : bool :=
  let artIds := ids_of a in
  match artIds with
  | _ :: _ => bool_decide (Exists (λ id, id ∈ ids) artIds)
  | [] =>
      match Article.categoryId a with
      | Val v => bool_decide (String_of v ∈ ids)
      | _ => false
      end
  end.

Definition cats_step (selected : list string) (lst : list Article.t) : list Article.t :=
  match selected with
  | _ :: _ =>
      let ids : gset string := list_to_set selected in
      filter (λ a, matches_cats ids a = true) lst
  | [] => lst
  end.

Definition network_step (networkFilter : string) (lst : list Article.t) : list Article.t :=
  if truthy_str networkFilter
  then filter (λ a, String_of_nullable (Article.networkId a) = networkFilter) lst
  else lst.

Definition featured_step (featuredOnly : bool) (lst : list Article.t) : list Article.t :=
  if featuredOnly then filter (λ a, Article.featured a = true) lst else lst.

(** The [switch (sortCol)] of the comparator: the string the column
    is compared on. *)
Definition sort_key (col : SortCol) (a : Article.t) : string :=
  match col with
  | col_title => Article.title a
  | col_status => Article.status a
  | col_networkId =>
      match Article.networkId a with
      | Val v => String_of v
      | _ => ""
      end
  | col_createdAt => nullish (Article.createdAt a) ""
  end.

Definition compare_articles (col : SortCol) (dir : SortDir) (a b : Article.t) : Z :=
  let av := sort_key col a in
  let bv := sort_key col b in
  match dir with
  | asc => localeCompare av bv
  | desc => localeCompare bv av
  end.

(** [[...articles].sort(cmp)] on values. *)
Definition sortArticles (articles : list Article.t) (col : SortCol) (dir : SortDir)
  : list Article.t :=
  sort_by (compare_articles col dir) articles.

(** The same on the heap: the copy is sorted in place and returned. *)
Definition sortArticles_ref (h : Heap Article.t) (articles : Ref)
    (col : SortCol) (dir : SortDir) : Heap Article.t * Ref :=
  let '(h1, copy) := spread h articles in
  sort_in_place (compare_articles col dir) h1 copy.

(** The [filtered] memo of the page. *)
Definition filtered (f : Filters) (allArticles : list Article.t) : list Article.t :=
  let lst := allArticles in
  let lst := search_step (search f) lst in
  let lst := status_step (statusFilter f) lst in
  let lst := cats_step (String_of ∘ Category.id <$> selectedCats f) lst in
  let lst := network_step (networkFilter f) lst in
  let lst := featured_step (featuredOnly f) lst in
  sortArticles lst (sortCol f) (sortDir f).

(** [filtered.slice(page * PAGE_SIZE, (page + 1) * PAGE_SIZE)] *)
Definition paginated (filtered : list Article.t) (page : nat) : list Article.t :=
  take PAGE_SIZE (drop (page * PAGE_SIZE)%nat filtered).

(** [filterArticles] of the test file; an option left out of [opts]
    is [None]. *)
Record Opts : Type := mkOpts
  { o_search : option string;
    o_status : option string;
    o_categoryIds : option (list string);
    o_networkId : option string;
    o_featuredOnly : option bool }.

Definition filterArticles (articles : list Article.t) (opts : Opts) : list Article.t :=
  let lst := articles in
  let lst := search_step (nullish (o_search opts) "") lst in
  let lst := status_step (nullish (o_status opts) "") lst in
  let lst := cats_step (nullish (o_categoryIds opts) []) lst in
  let lst := network_step (nullish (o_networkId opts) "") lst in
  featured_step (nullish (o_featuredOnly opts) false) lst.

End WithPlatform.



(** The chips of a table row in the current version:
    [article.categoryIds?.map(String) ?? (article.categoryId ?
     [String(article.categoryId)] : [])]. *)
Definition row_allCatIds (article : Article.t) : list string :=
  match Article.categoryIds article with
  | Some ids => String_of <$> ids
  | None =>
      match Article.categoryId article with
      | Val v => if truthy v then [String_of v] else []
      | _ => []
      end
  end.

(** The search of the first version of the page: the title only. *)
Definition filtered_v1_search `{Platform} (search : string) (articles : list Article.t)
  : list Article.t :=
  filter (λ a, includes (toLowerCase (Article.title a)) (toLowerCase search) = true) articles.

(** The whole [filtered] of the first version of the page (the third
    document of services/api.ts): [matchSearch && matchStatus], where the
    status filter ['all'] lets every status through. *)
Definition filtered_v1 `{Platform} (search statusFilter : string)
    (articles : list Article.t) : list Article.t :=
  filter (λ a,
    let matchSearch := includes (toLowerCase (Article.title a)) (toLowerCase search) in
    let matchStatus :=
      bool_decide (statusFilter = "all") || bool_decide (Article.status a = statusFilter) in
    matchSearch && matchStatus = true) articles.

(** The bulk selection: [selected] is a [Set<string>] of article ids. *)
Definition allPageIds (paginated : list Article.t) : list string :=
  String_of ∘ Article.id <$> paginated.

Definition allSelected (selected : gset string) (allPageIds : list string) : bool :=
  bool_decide (0 < length allPageIds)%nat &&
  bool_decide (Forall (λ id, id ∈ selected) allPageIds).

Definition someSelected (selected : gset string) (allPageIds : list string) : bool :=
  bool_decide (Exists (λ id, id ∈ selected) allPageIds) &&
  negb (allSelected selected allPageIds).

(** The updater that [toggleAll] hands to [setSelected]; [all_selected]
    is the [allSelected] of the render the handler belongs to. *)
Definition toggleAll_update (all_selected : bool) (allPageIds : list string)
    (prev : gset string) : gset string :=
  let next := prev in
  if all_selected
  then foldl (λ next id, next ∖ {[id]}) next allPageIds
  else foldl (λ next id, {[id]} ∪ next) next allPageIds.

(** [toggleAll] when the updater runs on the selection that was
    rendered. *)
Definition toggleAll (prev : gset string) (allPageIds : list string) : gset string :=
  toggleAll_update (allSelected prev allPageIds) allPageIds prev.

Definition toggleOne (prev : gset string) (id : string) : gset string :=
  let next := prev in
  if decide (id ∈ next) then next ∖ {[id]} else {[id]} ∪ next.

(** The [networkMap] memo: [m.set(String(n.id), n)] for every network. *)
Definition networkMap (networks : list Network.t) : gmap string Network.t :=
  foldl (λ m n, <[String_of (Network.id n) := n]> m) ∅ networks.

(** The network of a table row: [article.network ?? (article.networkId ?
    networkMap.get(String(article.networkId)) : null)]. *)
Definition row_network (article : Article.t) (networkMap : gmap string Network.t)
  : option Network.t :=
  match Article.network article with
  | Val n => Some n
  | _ =>
      match Article.networkId article with
      | Val v => if truthy v then networkMap !! String_of v else None
      | _ => None
      end
  end.

End ArticlesPage.

(** ** pages/DashboardPage.tsx *)

Module DashboardPage.
Import Js.

Definition BRAND_COLORS : list string :=
  ["#2979FF"; "#7B2FBE"; "#5040D8"; "#00BCD4"; "#E91E63";
   "#4CAF50"; "#FF9800"; "#9C27B0"; "#03A9F4"; "#8BC34A"].

Definition getArticleCategoryIds (article : Article.t) : list Id :=
  match Article.categoryIds article with
  | Some (c :: cs) => c :: cs
  | _ =>
      match Article.categoryId article with
      | Val v => [v]
      | _ => []
      end
  end.

(** [articles.filter(p).length] *)
Definition count_where (p : Article.t → bool) (articles : list Article.t) : Z :=
  Z.of_nat (length (filter (λ a, p a = true) articles)).

(** [a.network?.name ?? (a.networkId ? `Réseau #${a.networkId}` : null)];
    [None] is [null]. *)
Definition network_name (a : Article.t) : option string :=
  match Article.network a with
  | Val n => Some (Network.name n)
  | _ =>
      match Article.networkId a with
      | Val v => if truthy v then Some ("Réseau #" +:+ String_of v) else None
      | _ => None
      end
  end.

(** The body of the first [forEach]: [if (name) networkMap.set(...)]. *)
Definition count_network (networkMap : JsMap.t Z) (a : Article.t) : JsMap.t Z :=
  match network_name a with
  | Some name => if truthy_str name then JsMap.bump name networkMap else networkMap
  | None => networkMap
  end.

Definition networkMap (articles : list Article.t) : JsMap.t Z :=
  foldl count_network [] articles.

(** [(a, b) => b[1] - a[1]] *)
Definition by_count_desc (a b : string * Z) : Z := b.2 - a.2.

Definition byNetwork (articles : list Article.t) : list (string * Z) :=
  take 5 (sort_by by_count_desc (JsMap.entries (networkMap articles))).

(** The body of the second [forEach]. *)
Definition count_categories (catCountMap : JsMap.t Z) (a : Article.t) : JsMap.t Z :=
  foldl (λ m cid, let key := String_of cid in JsMap.bump key m)
    catCountMap (getArticleCategoryIds a).

Definition catCountMap (articles : list Article.t) : JsMap.t Z :=
  foldl count_categories [] articles.

Definition categoryById (categories : list Category.t) : gmap string Category.t :=
  foldl (λ m c, <[String_of (Category.id c) := c]> m) ∅ categories.

Record Slice : Type := mkSlice
  { name : string;
    value : Z;
    color : string }.

(** The callback of [.map(([cid, count], i) => ...)]. *)
Definition to_slice (byId : gmap string Category.t) (i : nat) (e : string * Z) : Slice :=
  let '(cid, count) := e in
  let cat := byId !! cid in
  {| name := nullish (Category.name <$> cat) ("Catégorie #" +:+ cid);
     value := count;
     color := nullish (cat ≫= Category.color)
                (nullish (BRAND_COLORS !! (i `mod` length BRAND_COLORS)%nat) "") |}.

Definition by_value_desc (a b : Slice) : Z := value b - value a.

Definition pieData (articles : list Article.t) (categories : list Category.t)
  : list Slice :=
  let byId := categoryById categories in
  sort_by by_value_desc
    (filter (λ d, 0 < value d)
       (imap (to_slice byId) (JsMap.entries (catCountMap articles)))).

Record Stats : Type := mkStats
  { total : Z;
    published : Z;
    draft : Z;
    archived : Z;
    featured : Z;
    stats_byNetwork : list (string * Z);
    stats_pieData : list Slice }.

(** The [stats] memo. *)
Definition stats (articles : list Article.t) (categories : list Category.t) : Stats :=
  {| total := Z.of_nat (length articles);
     published := count_where (λ a, bool_decide (Article.status a = "published")) articles;
     draft := count_where (λ a, bool_decide (Article.status a = "draft")) articles;
     archived := count_where (λ a, bool_decide (Article.status a = "archived")) articles;
     featured := count_where Article.featured articles;
     stats_byNetwork := byNetwork articles;
     stats_pieData := pieData articles categories |}.

(** [n.sentAt ?? n.createdAt ?? ''] *)
Definition notif_date (n : Notification.t) : string :=
  match Notification.sentAt n with
  | Val d => d
  | _ => nullish (Notification.createdAt n) ""
  end.

(** [(a, b) => db.localeCompare(da)] *)
Definition newest_first `{Platform} (a b : Notification.t) : Z :=
  let da := notif_date a in
  let db := notif_date b in
  localeCompare db da.

(** The [recentNotifs] memo. *)
Definition recentNotifs `{Platform} (notifications : list Notification.t)
  : list Notification.t :=
  take 5 (sort_by newest_first notifications).

End DashboardPage.

(** ** The error handlers of the delete mutations *)

Inductive Severity : Type := success | error | warning.

Record Snack : Type := mkSnack
  { msg : string;
    sev : Severity }.

Module CategoriesPage.
Import Interceptor.

Record State : Type := mkState
  { confirmDelete : option Category.t;
    snack : option Snack }.

Definition in_use_message : string :=
  "Impossible de supprimer: catégorie utilisée par des articles".

(** [deleteMut.onError] *)
Definition deleteMut_onError (e : ApiError) (st : State) : State :=
  let st := {| confirmDelete := None; snack := snack st |} in
  if decide (err_status e = Some 409)
  then {| confirmDelete := confirmDelete st;
          snack := Some {| msg := in_use_message; sev := warning |} |}
  else {| confirmDelete := confirmDelete st;
          snack := Some {| msg := err_message e; sev := error |} |}.
(** [a.categoryIds?.map(String) ?? (a.categoryId ? [String(a.categoryId)] : [])] *)
Definition article_ids (a : Article.t) : list string :=
  match Article.categoryIds a with
  | Some ids => Js.String_of <$> ids
  | None =>
      match Article.categoryId a with
      | Js.Val v => if Js.truthy v then [Js.String_of v] else []
      | _ => []
      end
  end.

(** The [articleCountByCategory] memo. *)
Definition articleCountByCategory (articles : list Article.t) : JsMap.t Z :=
  foldl (λ map a, foldl (λ map id, JsMap.bump id map) map (article_ids a)) [] articles.

Definition refusal (count : Z) : string :=
  "Impossible: " +:+ Js.String_of_num count +:+ " article(s) utilisent cette catégorie".

(** [handleDeleteRequest] *)
Definition handleDeleteRequest (articles : list Article.t) (cat : Category.t) (st : State)
  : State :=
  let count :=
    Js.nullish (JsMap.get (articleCountByCategory articles)
                  (Js.String_of (Category.id cat))) 0 in
  if 0 <? count
  then {| confirmDelete := confirmDelete st;
          snack := Some {| msg := refusal count; sev := warning |} |}
  else {| confirmDelete := Some cat; snack := snack st |}.

End CategoriesPage.

Module NetworksPage.
Import Interceptor.

Record State : Type := mkState
  { confirmDelete : option Network.t;
    snack : option Snack }.

Definition in_use_message : string :=
  "Impossible de supprimer: réseau utilisé par des articles".

(** [deleteMut.onError] *)
Definition deleteMut_onError (e : ApiError) (st : State) : State :=
  let st := {| confirmDelete := None; snack := snack st |} in
  if decide (err_status e = Some 409)
  then {| confirmDelete := confirmDelete st;
          snack := Some {| msg := in_use_message; sev := warning |} |}
  else {| confirmDelete := confirmDelete st;
          snack := Some {| msg := err_message e; sev := error |} |}.
(** The body of the [forEach] of [articleCountByNetwork]. *)
Definition count_article (map : JsMap.t Z) (a : Article.t) : JsMap.t Z :=
  match Article.networkId a with
  | Js.Val v => let key := Js.String_of v in JsMap.bump key map
  | _ => map
  end.

(** The [articleCountByNetwork] memo. *)
Definition articleCountByNetwork (articles : list Article.t) : JsMap.t Z :=
  foldl count_article [] articles.

Definition refusal (count : Z) : string :=
  "Impossible: " +:+ Js.String_of_num count +:+ " article(s) utilisent ce réseau".

(** [handleDeleteRequest] *)
Definition handleDeleteRequest (articles : list Article.t) (net : Network.t) (st : State)
  : State :=
  let count :=
    Js.nullish (JsMap.get (articleCountByNetwork articles)
                  (Js.String_of (Network.id net))) 0 in
  if 0 <? count
  then {| confirmDelete := confirmDelete st;
          snack := Some {| msg := refusal count; sev := warning |} |}
  else {| confirmDelete := Some net; snack := snack st |}.

End NetworksPage.

(** The article list has no conflict branch: [onError: (e) =>
    setSnack({ msg: e.message, sev: 'error' })]. *)
Definition ArticlesPage_deleteMut_onError (e : Interceptor.ApiError) : Snack :=
  {| msg := Interceptor.err_message e; sev := error |}.

(** ** pages/ArticleFormPage.tsx: the category and network fields *)

Module ArticleFormPage.
Import Js.

(** [const catIds = article.categoryIds?.map(String) ??
    (article.categoryId ? [String(article.categoryId)] : [])] *)
Definition catIds (article : Article.t) : list string :=
  match Article.categoryIds article with
  | Some ids => String_of <$> ids
  | None =>
      match Article.categoryId article with
      | Val v => if truthy v then [String_of v] else []
      | _ => []
      end
  end.

(** [categories.find(c => String(c.id) === id)] *)
Definition find_category (categories : list Category.t) (id : string)
  : option Category.t :=
  list_find (λ c, String_of (Category.id c) = id) categories ≫= (λ p, Some p.2).

(** [catIds.map(id => categories.find(...)).filter(Boolean)]: the
    categories put in the form when an article is edited. *)
Definition selectedCats (article : Article.t) (categories : list Category.t)
  : list Category.t :=
  omap (find_category categories) (catIds article).

(** [networkId: article.networkId ? String(article.networkId) : null] of
    the form. *)
Definition form_networkId (article : Article.t) : option string :=
  match Article.networkId article with
  | Val v => if truthy v then Some (String_of v) else None
  | _ => None
  end.

(** [categoryIds: values.categoryIds.map(c => c.id)] of [buildPayload]. *)
Definition payload_categoryIds (categoryIds : list Category.t) : list Id :=
  Category.id <$> categoryIds.

End ArticleFormPage.

(** A host for running the model on examples: ASCII case folding and
    comparison by code units. *)

Module AsciiHost.

Definition lower_ascii (c : Ascii.ascii) : Ascii.ascii :=
  let n := Ascii.nat_of_ascii c in
  if ((65 <=? n) && (n <=? 90))%nat then Ascii.ascii_of_nat (n + 32) else c.

Fixpoint lower (s : string) : string :=
  match s with
  | EmptyString => EmptyString
  | String c s' => String (lower_ascii c) (lower s')
  end.

Fixpoint compare_units (a b : string) : Z :=
  match a, b with
  | EmptyString, EmptyString => 0
  | EmptyString, String _ _ => -1
  | String _ _, EmptyString => 1
  | String c a', String d b' =>
      let x := Ascii.nat_of_ascii c in
      let y := Ascii.nat_of_ascii d in
      if (x <? y)%nat then -1
      else if (y <? x)%nat then 1
      else compare_units a' b'
  end.

Definition host : Js.Platform :=
  {| Js.toLowerCase := lower; Js.localeCompare := compare_units |}.

End AsciiHost.

(** A second example host.  The collation of a real host compares
    canonically equivalent strings as equal; this one knows a single
    equivalence, the letter U+00E9 and its decomposed form, "e" followed
    by the combining acute accent U+0301, and otherwise compares code
    units.  (Strings are UTF-8: U+00E9 is the bytes 195 169, U+0301 the
    bytes 204 129.) *)
Module ComposingHost.
Import Stdlib.Strings.Ascii.

Definition e_acute : string := String "195"%char (String "169"%char "").

Definition e_then_accent : string :=
  String "e"%char (String "204"%char (String "129"%char "")).

(** Replaces every decomposed form by the composed letter. *)
Fixpoint compose (s : string) : string :=
  match s with
  | String "e"%char (String "204"%char (String "129"%char rest)) =>
      String "195"%char (String "169"%char (compose rest))
  | String c rest => String c (compose rest)
  | EmptyString => EmptyString
  end.

Definition compare_composed (a b : string) : Z :=
  AsciiHost.compare_units (compose a) (compose b).

Definition host : Js.Platform :=
  {| Js.toLowerCase := AsciiHost.lower; Js.localeCompare := compare_composed |}.

End ComposingHost.

(** * Sample data for the examples *)

Module Samples.
Import Js Interceptor.

Definition conflict_409 : AxiosError :=
  {| response := Some {| resp_status := 409; data_message := Some "Category in use" |};
     message := Some "Request failed with status code 409" |}.

Definition sample_articles : list Article.t :=
  [ Article.mk (INum 1) "a" None "published" true Undefined (Some [INum 1]) Undefined Undefined None;
    Article.mk (INum 2) "b" None "draft" false Undefined None Undefined Undefined None;
    Article.mk (INum 3) "c" None "archived" false Null None Null Null None ].

Definition two_categories : Article.t :=
  Article.mk (INum 4) "t" None "draft" false Undefined (Some [INum 1; INum 3])
    Undefined Undefined None.

Definition network_99 : Article.t :=
  Article.mk (INum 9) "t" None "draft" false Undefined None
    (Val (INum 99)) Undefined None.

Definition scalar_zero : Article.t :=
  Article.mk (INum 7) "t" None "draft" false (Val (INum 0)) (Some [])
    Undefined Undefined None.

Definition category_zero : Category.t := Category.mk (INum 0) "General" None.

Definition climate : Article.t :=
  Article.mk (INum 1) "Paris climate summit" (Some "Environment and climate change")
    "published" true Undefined (Some [INum 1; INum 2]) (Val (INum 10)) Undefined
    (Some "2024-01-03").

Definition tech : Article.t :=
  Article.mk (INum 3) "Tech innovation" (Some "New AI breakthroughs announced")
    "draft" true Undefined (Some [INum 3]) (Val (INum 10)) Undefined
    (Some "2024-01-01").

Definition dated (i : Z) (title date : string) : Article.t :=
  Article.mk (INum i) title None "draft" false Undefined None Undefined Undefined
    (Some date).

Definition four_dates : list Article.t :=
  [ dated 1 "b" "2024-01-02"; dated 2 "d" "2023-12-31";
    dated 3 "a" "2024-01-03"; dated 4 "c" "2024-01-01" ].

End Samples.

(** * Vocabulary of the properties *)

Module Spec.
Import Js Api.

(** [key] is the first of [keys] whose value in [props] is an array,
    and that array is [val]. *)
Definition first_hit (props : list (string * Json)) (keys : list string)
    (key : string) (val : list Json) : Prop :=
  ∃ before after,
    keys = before ++ key :: after ∧
    get_prop props key = Some (JArr val) ∧
    ∀ k, k ∈ before → ∀ v, get_prop props k ≠ Some (JArr v).

Definition holds_array (props : list (string * Json)) (k : string) : Prop :=
  ∃ v, get_prop props k = Some (JArr v).

(** The list of ids is missing or has no element. *)
Definition no_list (article : Article.t) : Prop :=
  Article.categoryIds article = None ∨ Article.categoryIds article = Some [].

(** How many times [k] occurs in [keys]. *)
Definition occurrences (k : string) (keys : list string) : Z :=
  Z.of_nat (length (filter (λ k', k' = k) keys)).

(** The count a counting map holds for [k]; a missing key counts 0. *)
Definition count_of (m : JsMap.t Z) (k : string) : Z :=
  nullish (JsMap.get m k) 0.

(** The category keys the dashboard counts, article by article. *)
Definition category_keys (articles : list Article.t) : list string :=
  articles ≫= (λ a, String_of <$> DashboardPage.getArticleCategoryIds a).

(** The network label an article is counted under, if any. *)
Definition network_key (a : Article.t) : option string :=
  match DashboardPage.network_name a with
  | Some name => if truthy_str name then Some name else None
  | None => None
  end.

Definition network_keys (articles : list Article.t) : list string :=
  omap network_key articles.

(** [needle] occurs in [hay]. *)
Definition occurs_in (needle hay : string) : Prop :=
  ∃ pre post, hay = pre +:+ needle +:+ post.

(** [needle] occurs in [hay] when case is ignored: both are folded with
    the host's [toLowerCase] first. *)
Definition occurs_in_ci `{Platform} (needle hay : string) : Prop :=
  occurs_in (toLowerCase needle) (toLowerCase hay).

(** The title or the content of the article holds the search string,
    case ignored. *)
Definition search_hit `{Platform} (search : string) (a : Article.t) : Prop :=
  occurs_in_ci search (Article.title a) ∨
  ∃ c, Article.content a = Some c ∧ occurs_in_ci search c.


(** No two keys of the list compare as equal under [localeCompare]. *)
Fixpoint no_ties `{Platform} (keys : list string) : Prop :=
  match keys with
  | [] => True
  | k :: ks => Forall (λ k', localeCompare k k' ≠ 0) ks ∧ no_ties ks
  end.

(** The failure itself carries [text]: as the message of the response
    body, or, when the body has no message or an empty one, as the
    message of the transport error. *)
Definition carries (failure : Interceptor.AxiosError) (text : string) : Prop :=
  let body := Interceptor.response failure ≫= Interceptor.data_message in
  body = Some text ∨
  ((body = None ∨ body = Some "") ∧ Interceptor.message failure = Some text).



End Spec.

(** ** More sample data *)

Module MoreSamples.
Import Js Interceptor Samples.

Definition legacy_politics : Article.t :=
  Article.mk (INum 2) "t" None "draft" false (Val (INum 1)) None
    Undefined Undefined None.

Definition uncategorised : Article.t :=
  Article.mk (INum 3) "t" None "draft" false Undefined (Some [])
    Undefined Undefined None.

Definition football : Article.t :=
  Article.mk (INum 2) "Football results" (Some "Match scores from the weekend")
    "published" false Undefined (Some [INum 2]) (Val (INum 20)) Undefined
    (Some "2024-01-02").

Definition archived_story : Article.t :=
  Article.mk (INum 4) "Archived story" (Some "Old news")
    "archived" false (Val (INum 1)) None (Val (INum 20)) Undefined
    (Some "2023-12-31").

(** The fixture of articleFilters.test.ts. *)
Definition fixture : list Article.t := [climate; football; tech; archived_story].

Definition notif (i : Z) (sent : Nullable string) (created : option string)
  : Notification.t :=
  Notification.mk (INum i) Undefined sent created.

Definition six_notifications : list Notification.t :=
  [ notif 1 Undefined None;
    notif 2 (Val "2024-03-05") (Some "2024-01-01");
    notif 3 Null (Some "2024-02-01");
    notif 4 (Val "2024-02-10") None;
    notif 5 Undefined (Some "2024-03-01");
    notif 6 (Val "2024-03-09") (Some "2024-03-08") ].

(** A server error whose body repeats the text of the category page's
    in-use message. *)
Definition in_use_text_500 : AxiosError :=
  {| response :=
       Some {| resp_status := 500;
               data_message := Some CategoriesPage.in_use_message |};
     message := Some "Request failed with status code 500" |}.

(** Two articles whose titles are the two forms of the same letter. *)
Definition accents : list Article.t :=
  [ dated 1 ComposingHost.e_acute "2024-01-01";
    dated 2 ComposingHost.e_then_accent "2024-01-02" ].

End MoreSamples.

(** ** Vocabulary of the properties of the remaining code *)

Module Terms.
Import Js Spec ArticlesPage.

(** Options that keep only one of the filters of [opts]. *)
Definition only_search (opts : Opts) : Opts :=
  mkOpts (o_search opts) None None None None.
Definition only_status (opts : Opts) : Opts :=
  mkOpts None (o_status opts) None None None.
Definition only_categories (opts : Opts) : Opts :=
  mkOpts None None (o_categoryIds opts) None None.
Definition only_network (opts : Opts) : Opts :=
  mkOpts None None None (o_networkId opts) None.
Definition only_featured (opts : Opts) : Opts :=
  mkOpts None None None None (o_featuredOnly opts).

(** The options that the filter state of the page amounts to. *)
Definition opts_of (f : Filters) : Opts :=
  mkOpts (Some (search f)) (Some (statusFilter f))
    (Some (String_of ∘ Category.id <$> selectedCats f))
    (Some (networkFilter f)) (Some (featuredOnly f)).

(** One of the ids the dashboard resolves for the article is selected. *)
Definition in_selection (sel : list string) (a : Article.t) : Prop :=
  ∃ cid, cid ∈ DashboardPage.getArticleCategoryIds a ∧ String_of cid ∈ sel.

(** The article satisfies every filter that [opts] switches on. *)
Definition passes `{Platform} (opts : Opts) (a : Article.t) : Prop :=
  (∀ q, o_search opts = Some q → q ≠ "" → search_hit q a) ∧
  (∀ s, o_status opts = Some s → s ≠ "" → Article.status a = s) ∧
  (∀ sel, o_categoryIds opts = Some sel → sel ≠ [] → in_selection sel a) ∧
  (∀ n, o_networkId opts = Some n → n ≠ "" →
        String_of_nullable (Article.networkId a) = n) ∧
  (o_featuredOnly opts = Some true → Article.featured a = true).

(** A lookup table filled from a collection, one [set(key, value)] per
    element, in order. *)
Definition table {A V} (key : A → string) (val : A → V) (l : list A)
    (m : gmap string V) : gmap string V :=
  foldl (λ m x, <[key x := val x]> m) m l.

(** The category keys the delete pre-check of the category page counts. *)
Definition reference_keys (articles : list Article.t) : list string :=
  articles ≫= CategoriesPage.article_ids.

(** The network keys the delete pre-check of the network page counts. *)
Definition network_reference_keys (articles : list Article.t) : list string :=
  omap (λ a, String_of <$> present (Article.networkId a)) articles.

(** The article carries its categories as the backend sends them today
    (a non-empty list), or carries no list and a scalar that is absent or
    truthy. *)
Definition current_format (a : Article.t) : Prop :=
  (∃ c cs, Article.categoryIds a = Some (c :: cs)) ∨
  (Article.categoryIds a = None ∧
   ∀ v, Article.categoryId a = Val v → truthy v = true).

(** The sum of the counts of a counting map. *)
Definition total_count (m : JsMap.t Z) : Z := foldr Z.add 0 m.*2.

End Terms.

(** * Properties *)

(** ** Facts about the JavaScript primitives *)

Module JsFacts.
Import Js.

Lemma truthy_str_true s : truthy_str s = true ↔ s ≠ "".
Proof. destruct s; simpl; split; congruence. Qed.

Lemma truthy_str_false s : truthy_str s = false ↔ s = "".
Proof. destruct s; simpl; split; congruence. Qed.

(** *** [sort_by] *)

Section Sorting.
Context {A : Type} (cmp : A → A → Z).

Lemma sort_insert_Permutation x l : sort_insert cmp x l ≡ₚ x :: l.
Proof.
  induction l as [|y l IH]; simpl; [done|].
  destruct (0 <? cmp x y); [|done].
  rewrite IH. apply Permutation_swap.
Qed.

Lemma sort_by_Permutation l : sort_by cmp l ≡ₚ l.
Proof.
  induction l as [|x l IH]; simpl; [done|].
  fold (sort_by cmp l). by rewrite sort_insert_Permutation, IH.
Qed.

Lemma sort_by_length l : length (sort_by cmp l) = length l.
Proof. by rewrite sort_by_Permutation. Qed.


(** A comparator that is consistent in the sense the language asks of
    [sort]: opposite arguments give opposite verdicts, and "not after" is
    transitive. *)
Hypothesis cmp_flip : ∀ x y, 0 < cmp x y → cmp y x ≤ 0.
Hypothesis cmp_trans : ∀ x y z, cmp x y ≤ 0 → cmp y z ≤ 0 → cmp x z ≤ 0.

Lemma sort_insert_sorted x l :
  StronglySorted (not_after cmp) l → StronglySorted (not_after cmp) (sort_insert cmp x l).
Proof.
  intros Hs. induction Hs as [|y l Hs IH Hy]; simpl.
  - repeat constructor.
  - destruct (0 <? cmp x y) eqn:E.
    + apply Z.ltb_lt in E. constructor; [done|].
      rewrite Forall_forall. intros z Hz.
      rewrite sort_insert_Permutation in Hz.
      apply elem_of_cons in Hz as [->|Hz].
      * by apply cmp_flip.
      * rewrite Forall_forall in Hy. by apply Hy.
    + apply Z.ltb_ge in E.
      constructor; [by constructor|].
      constructor; [done|].
      rewrite Forall_forall in Hy |- *. intros z Hz.
      apply cmp_trans with y; [done|by apply Hy].
Qed.

Lemma sort_by_sorted l : StronglySorted (not_after cmp) (sort_by cmp l).
Proof.
  induction l as [|x l IH]; simpl; [constructor|].
  by apply sort_insert_sorted.
Qed.

End Sorting.

Lemma StronglySorted_weaken {A} (R R' : relation A) l :
  (∀ x y, R x y → R' x y) → StronglySorted R l → StronglySorted R' l.
Proof.
  intros Himp. induction 1 as [|x l Hs IH Hx]; constructor; [done|].
  eapply Forall_impl; [exact Hx|]. intros y. apply Himp.
Qed.

Lemma StronglySorted_reverse {A} (R : relation A) l :
  StronglySorted R l → StronglySorted (flip R) (reverse l).
Proof.
  induction 1 as [|x l Hs IH Hx]; [constructor|].
  rewrite reverse_cons. apply StronglySorted_app_2; [|done|repeat constructor].
  intros y z Hy ->%list_elem_of_singleton.
  rewrite Forall_forall in Hx. apply Hx. by rewrite elem_of_reverse in Hy.
Qed.

Lemma fmap_NoDup_inj {A B} (f : A → B) l x y :
  NoDup (f <$> l) → x ∈ l → y ∈ l → f x = f y → x = y.
Proof.
  induction l as [|a l IH]; simpl; [by intros _ ?%elem_of_nil|].
  intros [Ha Hl]%NoDup_cons [->|Hx]%elem_of_cons [->|Hy]%elem_of_cons E; auto.
  - destruct Ha. rewrite E. by apply list_elem_of_fmap_2.
  - destruct Ha. rewrite <- E. by apply list_elem_of_fmap_2.
Qed.

End JsFacts.

(** ** Facts about counting maps *)

Module JsMapFacts.
Import Js Spec.

Lemma get_set {V} k (v : V) m k' :
  JsMap.get (JsMap.set k v m) k' = if decide (k = k') then Some v else JsMap.get m k'.
Proof.
  induction m as [|[k0 v0] m IH]; simpl.
  - done.
  - destruct (decide (k0 = k)) as [->|Hne]; simpl.
    + by destruct (decide (k = k')).
    + rewrite IH. destruct (decide (k0 = k')) as [->|]; [|done].
      by rewrite decide_False.
Qed.



Lemma set_keys {V} k (v : V) m :
  (JsMap.set k v m).*1 = if decide (k ∈ m.*1) then m.*1 else m.*1 ++ [k].
Proof.
  induction m as [|[k0 v0] m IH]; csimpl.
  - done.
  - destruct (decide (k0 = k)) as [->|Hne]; csimpl.
    + rewrite decide_True; [done|by left].
    + rewrite IH. destruct (decide (k ∈ m.*1)) as [Hin|Hnin].
      * rewrite decide_True; [done|by right].
      * rewrite decide_False; [done|].
        intros [->|Hin']%elem_of_cons; done.
Qed.

Lemma set_NoDup {V} k (v : V) m : NoDup m.*1 → NoDup (JsMap.set k v m).*1.
Proof.
  intros Hnd. rewrite set_keys. case_decide as Hin; [done|].
  apply NoDup_app. split_and!; [done| |apply NoDup_singleton].
  intros x Hx ->%list_elem_of_singleton. done.
Qed.

Lemma elem_of_get {V} (m : JsMap.t V) k v :
  NoDup m.*1 → (k, v) ∈ m → JsMap.get m k = Some v.
Proof.
  induction m as [|[k0 v0] m IH]; csimpl; [by intros _ ?%elem_of_nil|].
  intros [Hk0 Hnd]%NoDup_cons [[= -> ->]|Hin]%elem_of_cons.
  - by rewrite decide_True.
  - rewrite decide_False; [by apply IH|].
    intros ->. apply Hk0. by apply (list_elem_of_fmap_2 fst) in Hin.
Qed.

Lemma occurrences_nil k : occurrences k [] = 0.
Proof. reflexivity. Qed.

Lemma occurrences_cons k k0 keys :
  occurrences k (k0 :: keys)
  = (if decide (k0 = k) then 1 else 0) + occurrences k keys.
Proof.
  unfold occurrences. rewrite filter_cons.
  destruct (decide (k0 = k)); simpl length; lia.
Qed.

Lemma occurrences_app k keys1 keys2 :
  occurrences k (keys1 ++ keys2) = occurrences k keys1 + occurrences k keys2.
Proof.
  unfold occurrences. rewrite filter_app, length_app. lia.
Qed.

Lemma occurrences_nonneg k keys : 0 ≤ occurrences k keys.
Proof. unfold occurrences. lia. Qed.

Lemma occurrences_pos k keys : 0 < occurrences k keys ↔ k ∈ keys.
Proof.
  induction keys as [|k0 keys IH].
  - rewrite occurrences_nil. split; [lia|by intros ?%elem_of_nil].
  - rewrite occurrences_cons, elem_of_cons.
    pose proof (occurrences_nonneg k keys).
    destruct (decide (k0 = k)) as [->|Hne].
    + split; [by left|lia].
    + rewrite Z.add_0_l, IH. split; [by right|]. by intros [->|?].
Qed.

(** Counting a run of keys into a map adds, for every key, the number of
    its occurrences; a key that does not occur is left as it was. *)
Lemma get_bump_all keys m k :
  JsMap.get (foldl (λ m key, JsMap.bump key m) m keys) k =
    if decide (occurrences k keys = 0) then JsMap.get m k
    else Some (count_of m k + occurrences k keys).
Proof.
  revert m. induction keys as [|k0 keys IH]; intros m.
  - by rewrite occurrences_nil.
  - simpl foldl. rewrite IH, occurrences_cons.
    pose proof (occurrences_nonneg k keys).
    unfold count_of, JsMap.bump. rewrite get_set.
    destruct (decide (k0 = k)) as [->|Hne].
    + rewrite (decide_False (P := 1 + _ = 0)) by lia.
      case_decide as Hz; [by rewrite Hz, Z.add_0_r|].
      f_equal. unfold nullish; simpl. lia.
    + rewrite !Z.add_0_l. done.
Qed.

Lemma bump_all_NoDup keys m :
  NoDup m.*1 → NoDup (foldl (λ m key, JsMap.bump key m) m keys).*1.
Proof.
  revert m. induction keys as [|k0 keys IH]; intros m Hnd; [done|].
  simpl. apply IH. by apply set_NoDup.
Qed.

Lemma count_bump_all keys k :
  count_of (foldl (λ m key, JsMap.bump key m) [] keys) k = occurrences k keys.
Proof.
  unfold count_of at 1. rewrite get_bump_all. unfold count_of. simpl.
  case_decide as Hz; simpl; lia.
Qed.

End JsMapFacts.

(** ** The query parameter builder *)

Module ApiFacts.
Import Js Api.

Lemma lookup_assign key value (q : gmap string string) k :
  assign key value q !! k =
    if decide (key = k) then from_option Some (q !! k) value else q !! k.
Proof.
  unfold assign. destruct value as [v|]; simpl.
  - case_decide as Hk.
    + subst. apply lookup_insert_eq.
    + by apply lookup_insert_ne.
  - by case_decide.
Qed.

Lemma if_truthy_Some s v : if_truthy s = Some v ↔ s = Some v ∧ v ≠ "".
Proof.
  destruct s as [[|c s]|]; simpl; split; try (intros [? ?]); try intros ?;
    simplify_eq; try done.
Qed.

Lemma if_truthy_empty : if_truthy (Some "") = None.
Proof. reflexivity. Qed.

(** Each key of the result comes from its own field and from nothing
    else. *)
Lemma lookup_build params :
  let q := buildArticleParams params in
  q !! "page" = String_of_num <$> ArticleQueryParams.page params ∧
  q !! "limit" = String_of_num <$> ArticleQueryParams.limit params ∧
  q !! "search" = if_truthy (ArticleQueryParams.search params) ∧
  q !! "status" = if_truthy (ArticleQueryParams.status params) ∧
  q !! "networkId" = String_of <$> present (ArticleQueryParams.networkId params) ∧
  q !! "featured" =
    (match ArticleQueryParams.featured params with
     | Some true => Some "true"
     | _ => None
     end) ∧
  q !! "sortBy" = if_truthy (ArticleQueryParams.sortBy params) ∧
  q !! "sortDir" = SortDir_str <$> ArticleQueryParams.sortDir params ∧
  q !! "categoryIds" =
    (match ArticleQueryParams.categoryIds params with
     | Some (c :: cs) => Some (join "," (String_of <$> (c :: cs)))
     | _ => None
     end).
Proof.
  unfold buildArticleParams; cbv zeta.
  repeat split; rewrite !lookup_assign; repeat (case_decide; try done);
    rewrite ?lookup_empty;
    match goal with |- from_option Some None ?v = _ => by destruct v end.
Qed.

Lemma build_keys params k :
  is_Some (buildArticleParams params !! k) → k ∈ param_keys.
Proof.
  unfold buildArticleParams, param_keys; cbv zeta.
  rewrite !lookup_assign.
  repeat (case_decide; [subst; intros _; set_solver|]).
  rewrite lookup_empty. by intros [? ?].
Qed.

(** C1. For every query, [buildArticleParams] emits [page] and
    [networkId] equal to [0] as the string ["0"]; omits [search] and
    [status] when they are the empty string; emits [featured] exactly
    when it is [true], and then as ["true"]; omits an empty
    [categoryIds] and emits a non-empty one as its elements joined by a
    comma in their order; gives no value to the key of an absent field,
    and has no key besides the nine documented ones. *)
Theorem buildArticleParams_omission_correct (params : ArticleQueryParams.t) :
  let q := buildArticleParams params in
  (ArticleQueryParams.page params = Some 0 → q !! "page" = Some "0") ∧
  (ArticleQueryParams.networkId params = Val (INum 0) → q !! "networkId" = Some "0") ∧
  (ArticleQueryParams.search params = Some "" → q !! "search" = None) ∧
  (ArticleQueryParams.status params = Some "" → q !! "status" = None) ∧
  (ArticleQueryParams.featured params = Some false → q !! "featured" = None) ∧
  (∀ v, q !! "featured" = Some v ↔
        ArticleQueryParams.featured params = Some true ∧ v = "true") ∧
  (ArticleQueryParams.categoryIds params = Some [] → q !! "categoryIds" = None) ∧
  (∀ ids, ArticleQueryParams.categoryIds params = Some ids → ids ≠ [] →
          q !! "categoryIds" = Some (join "," (String_of <$> ids))) ∧
  (ArticleQueryParams.page params = None → q !! "page" = None) ∧
  (ArticleQueryParams.limit params = None → q !! "limit" = None) ∧
  (ArticleQueryParams.search params = None → q !! "search" = None) ∧
  (ArticleQueryParams.status params = None → q !! "status" = None) ∧
  (present (ArticleQueryParams.networkId params) = None → q !! "networkId" = None) ∧
  (ArticleQueryParams.featured params = None → q !! "featured" = None) ∧
  (ArticleQueryParams.sortBy params = None → q !! "sortBy" = None) ∧
  (ArticleQueryParams.sortDir params = None → q !! "sortDir" = None) ∧
  (ArticleQueryParams.categoryIds params = None → q !! "categoryIds" = None) ∧
  (∀ k, is_Some (q !! k) → k ∈ param_keys).
Proof.
  intros q.
  destruct (lookup_build params)
    as (Hpage & Hlimit & Hsearch & Hstatus & Hnet & Hfeat & HsortBy & HsortDir & Hcats).
  fold q in Hpage, Hlimit, Hsearch, Hstatus, Hnet, Hfeat, HsortBy, HsortDir, Hcats.
  split_and!.
  - intros E. by rewrite Hpage, E.
  - intros E. by rewrite Hnet, E.
  - intros E. by rewrite Hsearch, E.
  - intros E. by rewrite Hstatus, E.
  - intros E. by rewrite Hfeat, E.
  - intros v. rewrite Hfeat.
    destruct (ArticleQueryParams.featured params) as [[|]|];
      (split; [intros ?; by simplify_eq | intros [? ?]; by simplify_eq]).
  - intros E. by rewrite Hcats, E.
  - intros ids E Hne. rewrite Hcats, E. by destruct ids.
  - intros E. by rewrite Hpage, E.
  - intros E. by rewrite Hlimit, E.
  - intros E. by rewrite Hsearch, E.
  - intros E. by rewrite Hstatus, E.
  - intros E. by rewrite Hnet, E.
  - intros E. by rewrite Hfeat, E.
  - intros E. by rewrite HsortBy, E.
  - intros E. by rewrite HsortDir, E.
  - intros E. by rewrite Hcats, E.
  - apply build_keys.
Qed.

Example nothing_set : buildArticleParams ArticleQueryParams.empty = ∅.
Proof. reflexivity. Qed.

(** Scenario 1 of the specification. *)
Example scenario_1 :
  buildArticleParams
    (ArticleQueryParams.mk (Some 0) (Some 20) (Some "") None None Undefined
       (Some false) None None)
  = <["limit" := "20"]> (<["page" := "0"]> ∅).
Proof. reflexivity. Qed.

Example join_in_order :
  buildArticleParams
    (ArticleQueryParams.mk None None None None
       (Some [INum 1; IStr "cat-2"; INum 3]) Undefined None None None)
  !! "categoryIds" = Some "1,cat-2,3".
Proof. reflexivity. Qed.

End ApiFacts.

(** ** The list-response normalizer *)

Module ToArrayFacts.
Import Js Api Spec.

Lemma first_array_hit props k keys val :
  get_prop props k = Some (JArr val) → first_array props (k :: keys) = Some val.
Proof. intros E. simpl. by rewrite E. Qed.

Lemma first_array_miss props k keys :
  ¬ holds_array props k → first_array props (k :: keys) = first_array props keys.
Proof.
  intros Hno. simpl.
  destruct (get_prop props k) as [[| | | |items|]|] eqn:E; try done.
  destruct Hno. by exists items.
Qed.

Lemma holds_array_dec props k : holds_array props k ∨ ¬ holds_array props k.
Proof.
  unfold holds_array.
  destruct (get_prop props k) as [[| | | |items|]|];
    try (right; intros [v Hv]; discriminate).
  left. by exists items.
Qed.

Lemma first_array_Some props keys val :
  first_array props keys = Some val ↔ ∃ key, first_hit props keys key val.
Proof.
  induction keys as [|k keys IH].
  - simpl. split; [done|]. intros (key & before & after & E & _). by destruct before.
  - destruct (holds_array_dec props k) as [[v Hv]|Hno].
    + rewrite (first_array_hit _ _ _ _ Hv). split.
      * intros [= ->]. exists k, [], keys. split_and!; [done|done|].
        intros k' Hin. by apply elem_of_nil in Hin.
      * intros (key & before & after & E & Hget & Hno).
        destruct before as [|k0 before]; simplify_eq/=; [congruence|].
        exfalso. eapply (Hno k0); [by left|done].
    + rewrite (first_array_miss _ _ _ Hno), IH. split.
      * intros (key & before & after & -> & Hget & Hno').
        exists key, (k :: before), after. split_and!; [done|done|].
        intros k' [->|Hin]%elem_of_cons v.
        -- intros Hk. apply Hno. by exists v.
        -- by apply Hno'.
      * intros (key & before & after & E & Hget & Hno').
        destruct before as [|k0 before]; simplify_eq/=.
        -- destruct Hno. by exists val.
        -- exists key, before, after. split_and!; [done|done|].
           intros k' Hin. apply Hno'. by right.
Qed.

Lemma first_array_None props keys :
  first_array props keys = None ↔
  ∀ k, k ∈ keys → ∀ v, get_prop props k ≠ Some (JArr v).
Proof.
  induction keys as [|k keys IH].
  - simpl. split; [|done]. intros _ k Hin. by apply elem_of_nil in Hin.
  - destruct (holds_array_dec props k) as [[v Hv]|Hno].
    + rewrite (first_array_hit _ _ _ _ Hv). split; [done|].
      intros Hall. exfalso. eapply (Hall k); [by left|done].
    + rewrite (first_array_miss _ _ _ Hno), IH. split.
      * intros Hall k' [->|Hin]%elem_of_cons v.
        -- intros Hk. apply Hno. by exists v.
        -- by apply Hall.
      * intros Hall k' Hin. apply Hall. by right.
Qed.

(** C8. [toArray] is a total function of the response body.  An array
    is returned as it is; for an object, the value of the first
    candidate key (in the order data, items, results, articles,
    categories, notifications, networks) that holds an array is
    returned; in every other case the result is the empty sequence,
    with the diagnostic. *)
Theorem toArray_normalizes (data : option Json) :
  envelope_keys =
    ["data"; "items"; "results"; "articles"; "categories"; "notifications"; "networks"] ∧
  (∀ items, data = Some (JArr items) → toArray data = (items, false)) ∧
  (∀ props key val,
      data = Some (JObj props) → first_hit props envelope_keys key val →
      toArray data = (val, false)) ∧
  (∀ props,
      data = Some (JObj props) →
      (∀ k, k ∈ envelope_keys → ∀ v, get_prop props k ≠ Some (JArr v)) →
      toArray data = ([], true)) ∧
  ((∀ items, data ≠ Some (JArr items)) → (∀ props, data ≠ Some (JObj props)) →
   toArray data = ([], true)).
Proof.
  split_and!.
  - reflexivity.
  - by intros items ->.
  - intros props key val -> Hhit. unfold toArray.
    assert (first_array props envelope_keys = Some val) as ->; [|done].
    apply first_array_Some. by exists key.
  - intros props -> Hno. unfold toArray.
    assert (first_array props envelope_keys = None) as ->; [|done].
    by apply first_array_None.
  - intros Harr Hobj. destruct data as [[| | | |items|props]|]; try done.
    + by destruct (Harr items).
    + by destruct (Hobj props).
Qed.

Example toArray_envelope :
  toArray (Some (JObj [("total", JNum 2); ("items", JNull);
                       ("articles", JArr [JNum 1; JNum 2])]))
  = ([JNum 1; JNum 2], false).
Proof. reflexivity. Qed.

Example toArray_malformed : toArray (Some (JStr "oops")) = ([], true).
Proof. reflexivity. Qed.

End ToArrayFacts.

(** ** Category resolution *)

Module ResolveFacts.
Import Js ArticlesPage Spec.

Lemma ids_of_no_list article : no_list article → ids_of article = [].
Proof. unfold ids_of. by intros [-> | ->]. Qed.

(** C2. [resolveCategory] looks up the first id of a non-empty list,
    whatever the legacy scalar is; with no list or an empty one it looks
    up the scalar; with neither it gives [null]; and an id that the table
    does not hold gives [null]. *)
Theorem resolveCategory_precedence
    (article : Article.t) (catMap : gmap string Category.t) :
  (∀ id0 rest,
      Article.categoryIds article = Some (id0 :: rest) →
      resolveCategory article catMap = catMap !! String_of id0) ∧
  (∀ v,
      no_list article → Article.categoryId article = Val v →
      resolveCategory article catMap = catMap !! String_of v) ∧
  (no_list article → present (Article.categoryId article) = None →
   resolveCategory article catMap = None) ∧
  (∀ id0 rest,
      Article.categoryIds article = Some (id0 :: rest) →
      catMap !! String_of id0 = None →
      resolveCategory article catMap = None) ∧
  (∀ v,
      no_list article → Article.categoryId article = Val v →
      catMap !! String_of v = None →
      resolveCategory article catMap = None).
Proof.
  assert (∀ id0 rest,
      Article.categoryIds article = Some (id0 :: rest) →
      resolveCategory article catMap = catMap !! String_of id0) as Hlist.
  { intros id0 rest E. unfold resolveCategory, ids_of. by rewrite E. }
  assert (∀ v,
      no_list article → Article.categoryId article = Val v →
      resolveCategory article catMap = catMap !! String_of v) as Hscalar.
  { intros v Hno E. unfold resolveCategory. by rewrite (ids_of_no_list _ Hno), E. }
  split_and!; [done|done| | |].
  - intros Hno E. unfold resolveCategory. rewrite (ids_of_no_list _ Hno).
    by destruct (Article.categoryId article).
  - intros id0 rest E Hmiss. by rewrite (Hlist _ _ E).
  - intros v Hno E Hmiss. by rewrite (Hscalar _ Hno E).
Qed.

Lemma buildCategoryMap_snoc categories c :
  buildCategoryMap (categories ++ [c])
  = <[String_of (Category.id c) := c]> (buildCategoryMap categories).
Proof. unfold buildCategoryMap. by rewrite foldl_app. Qed.

(** Last write wins in the lookup table. *)
Lemma buildCategoryMap_last categories c :
  buildCategoryMap (categories ++ [c]) !! String_of (Category.id c) = Some c.
Proof. rewrite buildCategoryMap_snoc. apply lookup_insert_eq. Qed.

Example list_wins :
  let politics := Category.mk (IStr "cat-1") "Politique" None in
  let sport := Category.mk (IStr "cat-2") "Sport" None in
  resolveCategory
    (Article.mk (INum 1) "t" None "draft" false (Val (IStr "cat-2"))
       (Some [IStr "cat-1"]) Undefined Undefined None)
    (buildCategoryMap [politics; sport])
  = Some politics.
Proof. reflexivity. Qed.

End ResolveFacts.

(** ** Error classification of a failed delete *)

Module DeleteFacts.
Import Js Interceptor Samples.

Lemma on_rejected_status error :
  err_status (on_rejected error) = resp_status <$> response error.
Proof. reflexivity. Qed.

(** The message of the rejection: the body's, else the transport's, else
    the fallback; never empty. *)
Lemma on_rejected_message_truthy error :
  truthy_str (err_message (on_rejected error)) = true.
Proof.
  unfold on_rejected, or_else; simpl.
  destruct (response error ≫= data_message) as [s|]; [destruct (truthy_str s) eqn:E; [done|]|];
    (destruct (message error) as [s'|]; [destruct (truthy_str s') eqn:E'; done|done]).
Qed.

(** The normalized message is [text] exactly when the failure carries
    it, for a text that is neither empty nor the fallback. *)
Lemma on_rejected_message_is (failure : AxiosError) (text : string) :
  text ≠ "" → text ≠ fallback_message →
  err_message (on_rejected failure) = text ↔ Spec.carries failure text.
Proof.
  intros Hne Hfb. unfold Spec.carries, on_rejected, or_else; cbn [err_message].
  assert (∀ s, truthy_str s = false → s = "") as Hfalse.
  { intros s Hs. apply not_true_iff_false in Hs.
    destruct (decide (s = "")) as [|Hs']; [done|].
    by apply JsFacts.truthy_str_true in Hs'. }
  assert (∀ s, truthy_str s = true → s ≠ "") as Htrue.
  { intros s Hs. by apply JsFacts.truthy_str_true. }
  destruct (response failure ≫= data_message) as [b|].
  - destruct (truthy_str b) eqn:Eb.
    + split; [intros ->; by left|].
      intros [[= ->]|[[?|[= ->]] _]]; [done|done|]. by apply Htrue in Eb.
    + apply Hfalse in Eb as ->.
      destruct (message failure) as [m|].
      * destruct (truthy_str m) eqn:Em.
        -- split; [intros ->; right; split; [by right|done]|].
           intros [[= E]|[_ [= ->]]]; [by subst|done].
        -- apply Hfalse in Em as ->. split; [done|].
           intros [[= E]|[_ [= E]]]; by subst.
      * split; [done|]. intros [[= E]|[_ ?]]; [by subst|done].
  - destruct (message failure) as [m|].
    + destruct (truthy_str m) eqn:Em.
      * split; [intros ->; right; split; [by left|done]|].
        intros [?|[_ [= ->]]]; done.
      * apply Hfalse in Em as ->. split; [done|].
        intros [?|[_ [= E]]]; [done|by subst].
    + split; [done|]. intros [?|[_ ?]]; done.
Qed.

(** C9. A delete rejected with status 409 reaches the caller as an
    error that carries the status 409; the category page and the network
    page then show their own "still used by articles" message as a
    warning, whatever text the server sent.  Any other failure keeps its
    status and shows the normalized message (the body's, else the
    transport's, else the fallback) as an error.  The in-use message is
    not the fallback message; the message of another failure is the in-use
    message exactly when that failure itself carries this text, and then
    the two notifications still differ, by their severity. *)
Theorem delete_conflict_is_distinct
    (conflict : AxiosError) (cst : CategoriesPage.State) (nst : NetworksPage.State) :
  resp_status <$> response conflict = Some 409 →
  let e := on_rejected conflict in
  err_status e = Some 409 ∧
  CategoriesPage.snack (CategoriesPage.deleteMut_onError e cst)
    = Some {| msg := CategoriesPage.in_use_message; sev := warning |} ∧
  NetworksPage.snack (NetworksPage.deleteMut_onError e nst)
    = Some {| msg := NetworksPage.in_use_message; sev := warning |} ∧
  CategoriesPage.in_use_message ≠ fallback_message ∧
  NetworksPage.in_use_message ≠ fallback_message ∧
  ∀ other : AxiosError,
    resp_status <$> response other ≠ Some 409 →
    let e' := on_rejected other in
    err_status e' = resp_status <$> response other ∧
    CategoriesPage.snack (CategoriesPage.deleteMut_onError e' cst)
      = Some {| msg := err_message e'; sev := error |} ∧
    NetworksPage.snack (NetworksPage.deleteMut_onError e' nst)
      = Some {| msg := err_message e'; sev := error |} ∧
    CategoriesPage.snack (CategoriesPage.deleteMut_onError e cst)
      ≠ CategoriesPage.snack (CategoriesPage.deleteMut_onError e' cst) ∧
    NetworksPage.snack (NetworksPage.deleteMut_onError e nst)
      ≠ NetworksPage.snack (NetworksPage.deleteMut_onError e' nst) ∧
    (msg <$> CategoriesPage.snack (CategoriesPage.deleteMut_onError e cst)
       = msg <$> CategoriesPage.snack (CategoriesPage.deleteMut_onError e' cst)
     ↔ Spec.carries other CategoriesPage.in_use_message) ∧
    (msg <$> NetworksPage.snack (NetworksPage.deleteMut_onError e nst)
       = msg <$> NetworksPage.snack (NetworksPage.deleteMut_onError e' nst)
     ↔ Spec.carries other NetworksPage.in_use_message) ∧
    (response other ≫= data_message = None → message other = None →
     err_message e' = fallback_message).
Proof.
  intros H409 e.
  assert (err_status e = Some 409) as He by (by rewrite <- H409).
  assert (CategoriesPage.snack (CategoriesPage.deleteMut_onError e cst)
          = Some {| msg := CategoriesPage.in_use_message; sev := warning |}) as Hc.
  { unfold CategoriesPage.deleteMut_onError. by rewrite decide_True. }
  assert (NetworksPage.snack (NetworksPage.deleteMut_onError e nst)
          = Some {| msg := NetworksPage.in_use_message; sev := warning |}) as Hn.
  { unfold NetworksPage.deleteMut_onError. by rewrite decide_True. }
  split_and!; [done|done|done|done|done|].
  intros other Hother e'.
  assert (err_status e' ≠ Some 409) as He' by done.
  assert (CategoriesPage.snack (CategoriesPage.deleteMut_onError e' cst)
          = Some {| msg := err_message e'; sev := error |}) as Hc'.
  { unfold CategoriesPage.deleteMut_onError. by rewrite decide_False. }
  assert (NetworksPage.snack (NetworksPage.deleteMut_onError e' nst)
          = Some {| msg := err_message e'; sev := error |}) as Hn'.
  { unfold NetworksPage.deleteMut_onError. by rewrite decide_False. }
  split_and!; [done|done|done| | | | |].
  - rewrite Hc, Hc'. intros [= _ ?].
  - rewrite Hn, Hn'. intros [= _ ?].
  - rewrite Hc, Hc'. subst e'. cbn [fmap option_fmap option_map msg].
    rewrite <- (on_rejected_message_is other CategoriesPage.in_use_message) by done.
    split; [by intros [= E]|by intros E; rewrite E].
  - rewrite Hn, Hn'. subst e'. cbn [fmap option_fmap option_map msg].
    rewrite <- (on_rejected_message_is other NetworksPage.in_use_message) by done.
    split; [by intros [= E]|by intros E; rewrite E].
  - intros Hb Hm. subst e'. unfold on_rejected; cbn [err_message].
    by rewrite Hb, Hm.
Qed.

Lemma delete_conflict_is_distinct_witness :
  resp_status <$> response conflict_409 = Some 409 ∧
  CategoriesPage.snack
    (CategoriesPage.deleteMut_onError (on_rejected conflict_409)
       {| CategoriesPage.confirmDelete := None; CategoriesPage.snack := None |})
  = Some {| msg := CategoriesPage.in_use_message; sev := warning |}.
Proof.
  split; [reflexivity|].
  apply (delete_conflict_is_distinct conflict_409
           {| CategoriesPage.confirmDelete := None; CategoriesPage.snack := None |}
           {| NetworksPage.confirmDelete := None; NetworksPage.snack := None |}).
  reflexivity.
Defined.

(** C9, the counterexample: a delete that fails with status 500 and a
    body that repeats the in-use text shows the very text of the 409
    case; only the severity of the notification tells them apart. *)
Lemma other_failure_can_show_the_in_use_text :
  resp_status <$> response MoreSamples.in_use_text_500 ≠ Some 409 ∧
  (∀ cst,
     msg <$> CategoriesPage.snack
               (CategoriesPage.deleteMut_onError (on_rejected conflict_409) cst)
     = msg <$> CategoriesPage.snack
                 (CategoriesPage.deleteMut_onError
                    (on_rejected MoreSamples.in_use_text_500) cst)) ∧
  err_message (on_rejected MoreSamples.in_use_text_500) = CategoriesPage.in_use_message ∧
  err_message (on_rejected MoreSamples.in_use_text_500) ≠ fallback_message.
Proof. split_and!; [done|by intros cst|done|done]. Qed.

(** The article list shows the normalized message for every status:
    conflicts belong to categories and networks, which articles refer
    to. *)
Lemma article_delete_has_no_conflict_branch (error1 error2 : AxiosError) :
  err_message (on_rejected error1) = err_message (on_rejected error2) →
  ArticlesPage_deleteMut_onError (on_rejected error1)
  = ArticlesPage_deleteMut_onError (on_rejected error2).
Proof. unfold ArticlesPage_deleteMut_onError. by intros ->. Qed.

End DeleteFacts.

(** ** Status counts of the dashboard *)

Module StatsFacts.
Import Js DashboardPage Samples.

Lemma count_where_cons p a articles :
  count_where p (a :: articles)
  = (if p a then 1 else 0) + count_where p articles.
Proof.
  unfold count_where. rewrite filter_cons.
  case_decide as Hp.
  - rewrite Hp. simpl length. lia.
  - destruct (p a); [done|]. lia.
Qed.

(** C6. When every article's status is one of draft, published and
    archived, the three status counts of [stats] add up to [total], the
    length of the collection. *)
Theorem stats_counts_partition
    (articles : list Article.t) (categories : list Category.t) :
  Forall (λ a, Article.ArticleStatus (Article.status a)) articles →
  let s := stats articles categories in
  published s + draft s + archived s = total s ∧
  total s = Z.of_nat (length articles).
Proof.
  intros Hall s. split; [|done]. subst s. simpl.
  induction Hall as [|a articles Ha _ IH]; [done|].
  rewrite !count_where_cons. simpl length.
  destruct Ha as [E | [E | E]]; rewrite E; simpl; lia.
Qed.

Lemma stats_counts_partition_witness :
  let s := stats sample_articles [] in
  published s + draft s + archived s = total s ∧ total s = 3.
Proof.
  apply (stats_counts_partition sample_articles []).
  unfold sample_articles, Article.ArticleStatus.
  repeat first [apply Forall_nil_2 | apply Forall_cons_2]; simpl; auto.
Defined.

(** Without the invariant the counts need not add up. *)
Example unknown_status_breaks_partition :
  let s := stats [Article.mk (INum 1) "a" None "review" false Undefined None
                    Undefined Undefined None] [] in
  published s + draft s + archived s = 0 ∧ total s = 1.
Proof. by vm_compute. Qed.

End StatsFacts.

(** ** The category and network aggregates of the dashboard *)

Module DashboardFacts.
Import Js Spec DashboardPage Samples JsFacts JsMapFacts.

Lemma count_categories_keys m a :
  count_categories m a
  = foldl (λ m key, JsMap.bump key m) m (String_of <$> getArticleCategoryIds a).
Proof. unfold count_categories. by rewrite foldl_fmap. Qed.

Lemma category_keys_cons a articles :
  category_keys (a :: articles)
  = (String_of <$> getArticleCategoryIds a) ++ category_keys articles.
Proof. reflexivity. Qed.

Lemma category_keys_app articles1 articles2 :
  category_keys (articles1 ++ articles2)
  = category_keys articles1 ++ category_keys articles2.
Proof. unfold category_keys. apply bind_app. Qed.

Lemma fold_count_categories m articles :
  foldl count_categories m articles
  = foldl (λ m key, JsMap.bump key m) m (category_keys articles).
Proof.
  revert m. induction articles as [|a articles IH]; intros m; [done|].
  rewrite category_keys_cons, foldl_app, <- count_categories_keys. apply IH.
Qed.

(** Every id of every article's resolved list is counted once. *)
Lemma get_catCountMap articles k :
  JsMap.get (catCountMap articles) k =
    if decide (occurrences k (category_keys articles) = 0) then None
    else Some (occurrences k (category_keys articles)).
Proof.
  unfold catCountMap. rewrite fold_count_categories, get_bump_all.
  case_decide; [done|]. by rewrite (Z.add_0_l _ : count_of [] k + _ = _).
Qed.

Lemma count_catCountMap articles k :
  count_of (catCountMap articles) k = occurrences k (category_keys articles).
Proof.
  unfold count_of. rewrite get_catCountMap. case_decide as Hz; simpl; lia.
Qed.


(** One more article adds, for every key, the occurrences of that key in
    the article's own resolved list. *)
Lemma catCountMap_insert_article before a after k :
  count_of (catCountMap (before ++ a :: after)) k
  = count_of (catCountMap (before ++ after)) k
    + occurrences k (String_of <$> getArticleCategoryIds a).
Proof.
  rewrite !count_catCountMap, !category_keys_app, category_keys_cons.
  rewrite !occurrences_app. lia.
Qed.






(** Scenario 4 of the specification, with the labels the page shows. *)
Example scenario_4 :
  pieData [two_categories] [Category.mk (INum 1) "Politics" None]
  = [ {| name := "Politics"; value := 1; color := "#2979FF" |};
      {| name := "Catégorie #3"; value := 1; color := "#7B2FBE" |} ].
Proof. by vm_compute. Qed.

(** *** Articles by network *)

Lemma count_network_key m a :
  count_network m a
  = match network_key a with Some k => JsMap.bump k m | None => m end.
Proof.
  unfold count_network, network_key.
  destruct (network_name a) as [name|]; [|done]. by destruct (truthy_str name).
Qed.

Lemma fold_count_network m articles :
  foldl count_network m articles
  = foldl (λ m key, JsMap.bump key m) m (network_keys articles).
Proof.
  revert m. induction articles as [|a articles IH]; intros m; [done|].
  simpl foldl. rewrite IH, count_network_key. unfold network_keys. csimpl.
  by destruct (network_key a).
Qed.

Lemma get_networkMap articles k :
  JsMap.get (networkMap articles) k =
    if decide (occurrences k (network_keys articles) = 0) then None
    else Some (occurrences k (network_keys articles)).
Proof.
  unfold networkMap. rewrite fold_count_network, get_bump_all.
  case_decide; [done|]. by rewrite (Z.add_0_l _ : count_of [] k + _ = _).
Qed.

Lemma networkMap_NoDup articles : NoDup (networkMap articles).*1.
Proof.
  unfold networkMap. rewrite fold_count_network.
  apply bump_all_NoDup. constructor.
Qed.

Lemma by_count_desc_flip x y : 0 < by_count_desc x y → by_count_desc y x ≤ 0.
Proof. unfold by_count_desc. lia. Qed.

Lemma by_count_desc_trans x y z :
  by_count_desc x y ≤ 0 → by_count_desc y z ≤ 0 → by_count_desc x z ≤ 0.
Proof. unfold by_count_desc. lia. Qed.

Lemma byNetwork_split articles :
  sort_by by_count_desc (JsMap.entries (networkMap articles))
  = byNetwork articles
    ++ drop 5 (sort_by by_count_desc (JsMap.entries (networkMap articles))).
Proof. unfold byNetwork. by rewrite take_drop. Qed.

(** The label an article is grouped under, case by case. *)
Lemma network_key_cases a :
  (∀ n, Article.network a = Val n → Network.name n ≠ "" →
        network_key a = Some (Network.name n)) ∧
  (∀ v, present (Article.network a) = None → Article.networkId a = Val v →
        truthy v = true → network_key a = Some ("Réseau #" +:+ String_of v)) ∧
  (present (Article.network a) = None → present (Article.networkId a) = None →
   network_key a = None).
Proof.
  unfold network_key, network_name. split_and!.
  - intros n -> Hn. by apply truthy_str_true in Hn as ->.
  - intros v Hnet -> ->. by destruct (Article.network a).
  - intros Hnet Hid.
    destruct (Article.network a); try done; by destruct (Article.networkId a).
Qed.

(** C5, as the code has it. The synthesized label is the French
    "Réseau #<id>": an article with a non-zero, non-empty network id and no
    network record is grouped under it (under "Réseau #99" for the id 99),
    an article with a named network under that name, and an article with
    neither a network nor an id is not counted.  Every group's count is the
    number of articles with that label; [byNetwork] lists groups by
    descending count and keeps the first five. *)
Theorem byNetwork_groups (articles : list Article.t) :
  (∀ a v, present (Article.network a) = None → Article.networkId a = Val v →
          truthy v = true →
          network_key a = Some ("Réseau #" +:+ String_of v)) ∧
  (∀ a, present (Article.network a) = None → Article.networkId a = Val (INum 99) →
        network_key a = Some "Réseau #99" ∧
        byNetwork [a] = [("Réseau #99", 1)]) ∧
  (∀ a n, Article.network a = Val n → Network.name n ≠ "" →
          network_key a = Some (Network.name n)) ∧
  (∀ a, present (Article.network a) = None → present (Article.networkId a) = None →
        network_key a = None) ∧
  (∀ k, count_of (networkMap articles) k = occurrences k (network_keys articles)) ∧
  (∀ k n, (k, n) ∈ byNetwork articles →
          n = occurrences k (network_keys articles) ∧ 0 < n) ∧
  NoDup (byNetwork articles).*1 ∧
  StronglySorted (λ x y, y.2 ≤ x.2) (byNetwork articles) ∧
  length (byNetwork articles) = (5 `min` length (networkMap articles))%nat ∧
  (∃ rest,
      JsMap.entries (networkMap articles) ≡ₚ byNetwork articles ++ rest ∧
      ∀ x y, x ∈ byNetwork articles → y ∈ rest → y.2 ≤ x.2).
Proof.
  pose proof (sort_by_sorted by_count_desc by_count_desc_flip by_count_desc_trans
                (JsMap.entries (networkMap articles))) as Hsorted.
  pose proof (sort_by_Permutation by_count_desc (JsMap.entries (networkMap articles)))
    as Hperm.
  rewrite byNetwork_split in Hsorted, Hperm.
  apply StronglySorted_app in Hsorted as (Hcross & Htop & _).
  unfold JsMap.entries in *.
  split_and!.
  - intros a. by destruct (network_key_cases a) as (_ & Hsyn & _).
  - intros a Hnet Hid. destruct (network_key_cases a) as (_ & Hsyn & _).
    pose proof (Hsyn (INum 99) Hnet Hid eq_refl) as Hkey.
    split; [exact Hkey|].
    unfold byNetwork, networkMap. simpl foldl.
    by rewrite count_network_key, Hkey.
  - intros a. by destruct (network_key_cases a) as (Hname & _ & _).
  - intros a. by destruct (network_key_cases a) as (_ & _ & Hnone).
  - intros k. unfold count_of. rewrite get_networkMap.
    pose proof (occurrences_nonneg k (network_keys articles)).
    case_decide as Hz; simpl; lia.
  - intros k n Hin.
    assert ((k, n) ∈ networkMap articles) as Hin'.
    { rewrite <- Hperm. apply elem_of_app. by left. }
    apply elem_of_get in Hin'; [|apply networkMap_NoDup].
    rewrite get_networkMap in Hin'.
    pose proof (occurrences_nonneg k (network_keys articles)).
    case_decide; [done|]. injection Hin' as <-. lia.
  - pose proof (networkMap_NoDup articles) as Hnd.
    rewrite <- Hperm, fmap_app in Hnd. by apply NoDup_app in Hnd as [? _].
  - eapply StronglySorted_weaken; [|exact Htop].
    intros x y. unfold not_after, by_count_desc. lia.
  - unfold byNetwork. rewrite length_take, sort_by_length. done.
  - eexists. split; [by rewrite Hperm|].
    intros x y Hx Hy. specialize (Hcross x y Hx Hy).
    unfold not_after, by_count_desc in Hcross. lia.
Qed.

(** C5, the counterexample: one article with network id 99 and no
    network record is grouped under "Réseau #99"; no group is labelled
    "Network #99". *)
Lemma network_99_label_is_french :
  byNetwork [network_99] = [("Réseau #99", 1)] ∧
  ¬ ∃ n, ("Network #99", n) ∈ byNetwork [network_99].
Proof.
  assert (byNetwork [network_99] = [("Réseau #99", 1)]) as E by (by vm_compute).
  split; [done|]. rewrite E. intros [n Hn].
  apply list_elem_of_singleton in Hn. discriminate Hn.
Qed.

Example byNetwork_top_five :
  let art (i : Z) (name : string) :=
    Article.mk (INum i) "t" None "draft" false Undefined None
      (Val (INum i)) (Val (Network.mk (INum i) name)) None in
  byNetwork [art 1 "a"; art 2 "b"; art 3 "c"; art 4 "b"; art 5 "d";
             art 6 "e"; art 7 "f"; art 8 "f"; art 9 "f"]
  = [("f", 3); ("b", 2); ("a", 1); ("c", 1); ("d", 1)].
Proof. by vm_compute. Qed.

End DashboardFacts.

(** ** The legacy scalar 0 in the table row and in the dashboard *)

Module ScalarZeroFacts.
Import Js Spec ArticlesPage DashboardPage Samples JsMapFacts DashboardFacts.




(** In the current version of the page the chips of the row are drawn
    from [row_allCatIds], which is empty here, although [resolveCategory]
    does find the category 0 and the dashboard shows it. *)
Example resolver_finds_zero_but_chips_do_not :
  row_allCatIds scalar_zero = [] ∧
  resolveCategory scalar_zero (buildCategoryMap [category_zero]) = Some category_zero ∧
  pieData [scalar_zero] [category_zero]
  = [ {| name := "General"; value := 1; color := "#2979FF" |} ].
Proof. by vm_compute. Qed.

End ScalarZeroFacts.

(** ** The search filter *)

Module SearchFacts.
Import Js Spec ArticlesPage Samples JsFacts.

Lemma append_cons c a b : String c a +:+ b = String c (a +:+ b).
Proof. reflexivity. Qed.

Lemma append_nil b : "" +:+ b = b.
Proof. reflexivity. Qed.

Lemma startsWith_spec s q : startsWith s q = true ↔ ∃ post, s = q +:+ post.
Proof.
  revert s. induction q as [|c q IH]; intros s; simpl.
  - split; [intros _; by exists s|done].
  - destruct s as [|d s].
    + split; [done|]. by intros [post ?].
    + destruct (decide (c = d)) as [->|Hne].
      * rewrite IH. split; intros [post E]; exists post;
          rewrite append_cons in *; congruence.
      * split; [done|]. intros [post E]. rewrite append_cons in E. congruence.
Qed.

Lemma includes_spec s q : includes s q = true ↔ occurs_in q s.
Proof.
  unfold occurs_in. induction s as [|d s IH].
  - simpl. rewrite orb_false_r, startsWith_spec. split.
    + intros [post E]. by exists "", post.
    + intros ([|? pre] & post & E); [by exists post|done].
  - cbn [includes]. rewrite orb_true_iff, IH, startsWith_spec. split.
    + intros [[post E] | (pre & post & E)].
      * by exists "", post.
      * exists (String d pre), post. rewrite append_cons. by rewrite E.
    + intros ([|c pre] & post & E).
      * left. by exists post.
      * right. exists pre, post. rewrite append_cons in E. congruence.
Qed.


Section WithPlatform.
Context `{Platform}.

Lemma matches_search_spec search a :
  matches_search (toLowerCase search) a = true ↔ search_hit search a.
Proof.
  unfold matches_search, search_hit, occurs_in_ci.
  rewrite orb_true_iff, includes_spec.
  destruct (Article.content a) as [c|].
  - rewrite includes_spec. split; intros [Ht | Hc]; auto.
    + right. by exists c.
    + destruct Hc as (c' & [= <-] & Hc). by right.
  - split; intros [Ht | Hc]; auto; [done|]. by destruct Hc as (c' & ? & _).
Qed.




(** The other filters switched off, the page's [filtered] is the search
    result, sorted. *)
Lemma filtered_search_only search col dir allArticles :
  filtered (mkFilters search "" [] "" false col dir) allArticles
  = sortArticles (search_step search allArticles) col dir.
Proof. reflexivity. Qed.

End WithPlatform.

Example search_is_case_insensitive :
  @search_step AsciiHost.host "PARIS" [climate; tech] = [climate] ∧
  @search_step AsciiHost.host "ai BREAK" [climate; tech] = [tech] ∧
  @search_step AsciiHost.host "xyzzy" [climate; tech] = [].
Proof. by vm_compute. Qed.

(** The first version of the page searched the title only. *)
Example first_version_ignores_content :
  @filtered_v1_search AsciiHost.host "breakthroughs" [climate; tech] = [] ∧
  @search_step AsciiHost.host "breakthroughs" [climate; tech] = [tech].
Proof. by vm_compute. Qed.

(** With the empty search string the first version keeps the whole
    fixture, as the current one does. *)
Example first_version_empty_search :
  @filtered_v1 AsciiHost.host "" "all" MoreSamples.fixture = MoreSamples.fixture ∧
  @search_step AsciiHost.host "" MoreSamples.fixture = MoreSamples.fixture.
Proof. by vm_compute. Qed.


End SearchFacts.

(** ** Sorting the article list *)

Module SortFacts.
Import Js Spec ArticlesPage Samples JsFacts.

(** *** The heap operations *)

Lemma deref_spread_old {A} (h : Heap A) (r r0 : Ref) :
  (r0 < length h)%nat → deref (spread h r).1 r0 = deref h r0.
Proof. intros Hlt. unfold deref, spread; cbn [fst snd]. by rewrite lookup_app_l. Qed.

Lemma deref_spread_new {A} (h : Heap A) (r : Ref) :
  deref (spread h r).1 (spread h r).2 = deref h r.
Proof.
  unfold spread; cbn [fst snd]. unfold deref at 1.
  by rewrite lookup_app_r, Nat.sub_diag by lia.
Qed.

Lemma deref_sort_in_place {A} (cmp : A → A → Z) (h : Heap A) (r r0 : Ref) :
  deref (sort_in_place cmp h r).1 r0
  = if decide (r = r0) then sort_by cmp (deref h r0) else deref h r0.
Proof.
  unfold sort_in_place, deref; cbn [fst snd].
  destruct (decide (r = r0)) as [->|Hne].
  - rewrite list_lookup_alter_eq. by destruct (h !! r0).
  - by rewrite list_lookup_alter_ne.
Qed.

(** *** The example host is a lawful one *)

Lemma compare_units_flip a b :
  Z.sgn (AsciiHost.compare_units a b) = - Z.sgn (AsciiHost.compare_units b a).
Proof.
  revert b. induction a as [|c a IH]; intros [|d b]; simpl; try done.
  destruct (Nat.ltb_spec (Ascii.nat_of_ascii c) (Ascii.nat_of_ascii d)),
           (Nat.ltb_spec (Ascii.nat_of_ascii d) (Ascii.nat_of_ascii c));
    try done; try lia.
Qed.

Lemma compare_units_trans a b c :
  AsciiHost.compare_units a b ≤ 0 → AsciiHost.compare_units b c ≤ 0 →
  AsciiHost.compare_units a c ≤ 0.
Proof.
  revert b c. induction a as [|x a IH]; intros [|y b] [|z c]; simpl; try done; try lia.
  destruct (Nat.ltb_spec (Ascii.nat_of_ascii x) (Ascii.nat_of_ascii y)),
           (Nat.ltb_spec (Ascii.nat_of_ascii y) (Ascii.nat_of_ascii x)),
           (Nat.ltb_spec (Ascii.nat_of_ascii y) (Ascii.nat_of_ascii z)),
           (Nat.ltb_spec (Ascii.nat_of_ascii z) (Ascii.nat_of_ascii y)),
           (Nat.ltb_spec (Ascii.nat_of_ascii x) (Ascii.nat_of_ascii z)),
           (Nat.ltb_spec (Ascii.nat_of_ascii z) (Ascii.nat_of_ascii x));
    try lia. apply IH.
Qed.

Lemma compare_units_eq a b : AsciiHost.compare_units a b = 0 → a = b.
Proof.
  revert b. induction a as [|c a IH]; intros [|d b]; simpl; try done.
  destruct (Nat.ltb_spec (Ascii.nat_of_ascii c) (Ascii.nat_of_ascii d)); [done|].
  destruct (Nat.ltb_spec (Ascii.nat_of_ascii d) (Ascii.nat_of_ascii c)); [done|].
  intros E. f_equal; [|by apply IH].
  rewrite <- (Ascii.ascii_nat_embedding c), <- (Ascii.ascii_nat_embedding d).
  f_equal. lia.
Qed.

Lemma ascii_host_order : @LocaleOrder AsciiHost.host.
Proof. split; [apply compare_units_flip|apply compare_units_trans]. Qed.

(** The second example host is lawful too, and ties two different
    strings. *)
Lemma composing_host_order : @LocaleOrder ComposingHost.host.
Proof.
  split.
  - intros a b. apply compare_units_flip.
  - intros a b c. apply compare_units_trans.
Qed.

Lemma composing_host_ties :
  ComposingHost.e_acute ≠ ComposingHost.e_then_accent ∧
  @localeCompare ComposingHost.host ComposingHost.e_acute ComposingHost.e_then_accent = 0.
Proof. by split. Qed.

(** *** Descending is the reverse of ascending *)

Section WithPlatform.
Context `{LocaleOrder}.

Lemma localeCompare_pos_flip a b : 0 < localeCompare a b → localeCompare b a ≤ 0.
Proof. pose proof (localeCompare_flip a b). lia. Qed.

Lemma localeCompare_tie a b :
  localeCompare a b ≤ 0 → localeCompare b a ≤ 0 → localeCompare a b = 0.
Proof. pose proof (localeCompare_flip a b). lia. Qed.

Lemma compare_articles_flip col dir x y :
  0 < compare_articles col dir x y → compare_articles col dir y x ≤ 0.
Proof. unfold compare_articles. destruct dir; apply localeCompare_pos_flip. Qed.

Lemma compare_articles_trans col dir x y z :
  compare_articles col dir x y ≤ 0 → compare_articles col dir y z ≤ 0 →
  compare_articles col dir x z ≤ 0.
Proof.
  unfold compare_articles. destruct dir; intros Hxy Hyz.
  - by eapply localeCompare_trans.
  - by eapply localeCompare_trans.
Qed.

Lemma sortArticles_sorted c col dir :
  StronglySorted (not_after (compare_articles col dir)) (sortArticles c col dir).
Proof.
  apply sort_by_sorted;
    [apply compare_articles_flip|apply compare_articles_trans].
Qed.

Lemma sortArticles_Permutation c col dir : sortArticles c col dir ≡ₚ c.
Proof. apply sort_by_Permutation. Qed.

(** Two articles of [c] that tie are the same article: then the two
    directions give mirrored results. *)
Lemma sort_desc_reverse_no_ties c col :
  (∀ x y, x ∈ c → y ∈ c →
          localeCompare (sort_key col x) (sort_key col y) = 0 → x = y) →
  sortArticles c col desc = reverse (sortArticles c col asc).
Proof.
  intros Hties.
  apply (StronglySorted_unique_strong (not_after (compare_articles col desc))).
  - intros x y Hx Hy Hxy Hyx.
    rewrite sortArticles_Permutation in Hx.
    rewrite elem_of_reverse, sortArticles_Permutation in Hy.
    apply Hties; [done|done|].
    unfold not_after, compare_articles in Hxy, Hyx.
    by apply localeCompare_tie.
  - apply sortArticles_sorted.
  - apply (StronglySorted_reverse (not_after (compare_articles col asc))).
    apply sortArticles_sorted.
  - by rewrite reverse_Permutation, !sortArticles_Permutation.
Qed.

(** The sort of the test helper on the heap: the input array keeps its
    elements, the result is a new array. *)
Lemma sortArticles_ref_spec (h : Heap Article.t) (r : Ref) col dir :
  (r < length h)%nat →
  let '(h', out) := sortArticles_ref h r col dir in
  deref h' r = deref h r ∧ out ≠ r ∧
  deref h' out = sortArticles (deref h r) col dir.
Proof.
  intros Hlt. unfold sortArticles_ref.
  destruct (spread h r) as [h1 copy] eqn:Hs.
  destruct (sort_in_place (compare_articles col dir) h1 copy) as [h' out] eqn:Hp.
  assert (out = copy) as -> by (by injection Hp).
  assert (copy = length h) as Hcopy by (by injection Hs).
  assert (h' = (sort_in_place (compare_articles col dir) h1 copy).1) as ->
    by (by rewrite Hp).
  assert (h1 = (spread h r).1) as -> by (by rewrite Hs).
  rewrite !deref_sort_in_place.
  rewrite decide_False by lia. rewrite decide_True by done.
  split_and!; [by apply deref_spread_old|lia|].
  replace copy with (spread h r).2 by (by rewrite Hs).
  by rewrite deref_spread_new.
Qed.

(** Keys without ties: two articles of the collection that tie are at
    the same place, and the keys are pairwise different. *)
Lemma localeCompare_self a : localeCompare a a = 0.
Proof. pose proof (localeCompare_flip a a). lia. Qed.

Lemma localeCompare_tie_sym a b : localeCompare a b = 0 → localeCompare b a = 0.
Proof. pose proof (localeCompare_flip a b). lia. Qed.

Lemma no_ties_tie_eq {A} (key : A → string) (c : list A) x y :
  no_ties (key <$> c) → x ∈ c → y ∈ c →
  localeCompare (key x) (key y) = 0 → x = y.
Proof.
  induction c as [|a c IH]; csimpl; [by intros _ ?%elem_of_nil|].
  intros [Hall Hrest] Hx Hy Htie.
  rewrite Forall_fmap, Forall_forall in Hall.
  apply elem_of_cons in Hx as [->|Hx]; apply elem_of_cons in Hy as [->|Hy].
  - done.
  - by destruct (Hall y Hy).
  - apply localeCompare_tie_sym in Htie. by destruct (Hall x Hx).
  - by apply IH.
Qed.

Lemma no_ties_NoDup (keys : list string) : no_ties keys → NoDup keys.
Proof.
  induction keys as [|k ks IH]; simpl; [constructor|].
  intros [Hall Hrest]. constructor; [|by apply IH].
  intros Hin. rewrite Forall_forall in Hall.
  apply (Hall k Hin). apply localeCompare_self.
Qed.

(** On a host whose comparison never ties two different strings,
    different keys are keys without ties. *)
Lemma NoDup_no_ties (keys : list string) :
  (∀ a b, a ∈ keys → b ∈ keys → localeCompare a b = 0 → a = b) →
  NoDup keys → no_ties keys.
Proof.
  induction keys as [|k ks IH]; simpl; [done|].
  intros Hdist [Hk Hnd]%NoDup_cons. split.
  - apply Forall_forall. intros k' Hk' Htie.
    apply Hdist in Htie; [by subst|left|by right].
  - apply IH; [|done]. intros a b Ha Hb. apply Hdist; by right.
Qed.

(** C7. When no two articles of the collection have string keys on
    the sort column that compare as equal under [localeCompare], sorting
    descending gives the reverse of sorting ascending.  Such keys are
    pairwise different; different keys alone are not enough, since the
    comparison of the host can tie different strings.  The key is the
    field as a string, with a missing network id or creation date read as
    the empty string; both results are sorted rearrangements of the
    collection; on the heap, the sort works on a copy and the input array
    keeps its elements.  ([localeCompare] is taken to be a consistent
    comparator.) *)
Theorem sort_desc_is_reverse_of_asc (c : list Article.t) (col : SortCol) :
  no_ties (sort_key col <$> c) →
  sortArticles c col desc = reverse (sortArticles c col asc) ∧
  NoDup (sort_key col <$> c) ∧
  (∀ dir, sortArticles c col dir ≡ₚ c ∧
          StronglySorted (not_after (compare_articles col dir))
            (sortArticles c col dir)) ∧
  (∀ a b,
      compare_articles col asc a b = localeCompare (sort_key col a) (sort_key col b) ∧
      compare_articles col desc a b = localeCompare (sort_key col b) (sort_key col a)) ∧
  (∀ a, sort_key col_title a = Article.title a ∧
        sort_key col_status a = Article.status a ∧
        sort_key col_networkId a
          = from_option String_of "" (present (Article.networkId a)) ∧
        sort_key col_createdAt a = default "" (Article.createdAt a)) ∧
  (∀ (h : Heap Article.t) (r : Ref) dir,
      (r < length h)%nat → deref h r = c →
      deref (sortArticles_ref h r col dir).1 r = c ∧
      (sortArticles_ref h r col dir).2 ≠ r ∧
      deref (sortArticles_ref h r col dir).1 (sortArticles_ref h r col dir).2
        = sortArticles c col dir).
Proof.
  intros Hno. split_and!.
  - apply sort_desc_reverse_no_ties.
    intros x y Hx Hy Htie. by eapply no_ties_tie_eq.
  - by apply no_ties_NoDup.
  - intros dir. split; [apply sortArticles_Permutation|apply sortArticles_sorted].
  - done.
  - intros a. split_and!; try done. simpl.
    by destruct (Article.networkId a).
  - intros h r dir Hlt <-.
    pose proof (sortArticles_ref_spec h r col dir Hlt) as Hspec.
    by destruct (sortArticles_ref h r col dir) as [h' out].
Qed.

End WithPlatform.

Lemma sort_desc_is_reverse_of_asc_witness :
  @sortArticles AsciiHost.host four_dates col_createdAt desc
  = reverse (@sortArticles AsciiHost.host four_dates col_createdAt asc).
Proof.
  refine (proj1 (@sort_desc_is_reverse_of_asc AsciiHost.host ascii_host_order
                   four_dates col_createdAt _)).
  simpl. repeat split; repeat constructor; by vm_compute.
Defined.

(** The first example host compares code units and never ties two
    different strings: on such a host different keys are keys without
    ties. *)
Lemma code_units_different_keys (c : list Article.t) (col : SortCol) :
  NoDup (sort_key col <$> c) → @no_ties AsciiHost.host (sort_key col <$> c).
Proof.
  apply (@NoDup_no_ties AsciiHost.host). intros a b _ _. apply compare_units_eq.
Qed.

(** C7, the counterexample: the titles of the two articles are
    different strings, the precomposed letter and its decomposed form; a
    host that compares them as equal, as the collation of a real host
    does, keeps the input order in both directions, so the descending
    result is not the reverse of the ascending one. *)
Lemma different_keys_can_tie :
  (@LocaleOrder ComposingHost.host) ∧
  NoDup (sort_key col_title <$> MoreSamples.accents) ∧
  (@sortArticles ComposingHost.host MoreSamples.accents col_title desc
   = MoreSamples.accents) ∧
  (reverse (@sortArticles ComposingHost.host MoreSamples.accents col_title asc)
   = reverse MoreSamples.accents) ∧
  (@sortArticles ComposingHost.host MoreSamples.accents col_title desc
   ≠ reverse (@sortArticles ComposingHost.host MoreSamples.accents col_title asc)).
Proof.
  assert (@sortArticles ComposingHost.host MoreSamples.accents col_title desc
          = MoreSamples.accents) as Ed by (by vm_compute).
  assert (reverse (@sortArticles ComposingHost.host MoreSamples.accents col_title asc)
          = reverse MoreSamples.accents) as Ea by (by vm_compute).
  split_and!; [apply composing_host_order| |done|done|].
  - vm_compute. repeat constructor; rewrite ?elem_of_cons, ?elem_of_nil;
      intros Hin; repeat destruct Hin as [Hin|Hin]; done.
  - rewrite Ed, Ea. by vm_compute.
Qed.

(** Scenario 3 of the specification. *)
Example scenario_3 :
  Article.createdAt <$> @sortArticles AsciiHost.host four_dates col_createdAt desc
  = [Some "2024-01-03"; Some "2024-01-02"; Some "2024-01-01"; Some "2023-12-31"].
Proof. by vm_compute. Qed.

(** With a tie the two directions are not mirror images: the sort is
    stable in both. *)
Example tie_keeps_input_order :
  let x := dated 1 "first" "2024-01-01" in
  let y := dated 2 "second" "2024-01-01" in
  @sortArticles AsciiHost.host [x; y] col_createdAt desc = [x; y] ∧
  reverse (@sortArticles AsciiHost.host [x; y] col_createdAt asc) = [y; x].
Proof. by vm_compute. Qed.

End SortFacts.

(** * Properties of the remaining code *)

(** ** The filter chain *)

Module FilterFacts.
Import Js Spec Terms ArticlesPage Samples MoreSamples JsFacts SearchFacts SortFacts.

#[local] Set Warnings "-clear-no-such-hyp".

Lemma matches_cats_spec (ids : gset string) a :
  matches_cats ids a = true ↔
  ∃ cid, cid ∈ DashboardPage.getArticleCategoryIds a ∧ String_of cid ∈ ids.
Proof.
  unfold matches_cats, ids_of, DashboardPage.getArticleCategoryIds.
  destruct (Article.categoryIds a) as [[|c cs]|]; cbv zeta.
  1,3: destruct (Article.categoryId a) as [| |v]; csimpl;
         try (split; [done|by intros (cid & ?%elem_of_nil & _)]);
         rewrite bool_decide_eq_true; split;
         [ intros Hv; exists v; split; [by left|done]
         | by intros (cid & ->%list_elem_of_singleton & Hv) ].
  destruct (String_of <$> c :: cs) as [|k0 ks] eqn:E; [done|]. rewrite <- E.
  rewrite bool_decide_eq_true, Exists_exists. split.
  - intros (k & Hk & Hin).
    apply list_elem_of_fmap in Hk as (cid & -> & Hcid). by exists cid.
  - intros (cid & Hcid & Hin). exists (String_of cid). split; [|done].
    by apply list_elem_of_fmap_2.
Qed.

Section WithPlatform.
Context `{Platform}.

Lemma elem_of_search_step q l a :
  a ∈ search_step q l ↔ a ∈ l ∧ (q ≠ "" → search_hit q a).
Proof.
  unfold search_step. destruct (truthy_str q) eqn:E.
  - apply truthy_str_true in E.
    rewrite list_elem_of_filter, matches_search_spec. tauto.
  - apply truthy_str_false in E. tauto.
Qed.

Lemma elem_of_status_step s l a :
  a ∈ status_step s l ↔ a ∈ l ∧ (s ≠ "" → Article.status a = s).
Proof.
  unfold status_step. destruct (truthy_str s) eqn:E.
  - apply truthy_str_true in E. rewrite list_elem_of_filter. tauto.
  - apply truthy_str_false in E. tauto.
Qed.

Lemma elem_of_cats_step sel l a :
  a ∈ cats_step sel l ↔ a ∈ l ∧ (sel ≠ [] → in_selection sel a).
Proof.
  unfold cats_step, in_selection. destruct sel as [|k sel]; [tauto|].
  rewrite list_elem_of_filter, matches_cats_spec.
  setoid_rewrite elem_of_list_to_set. split.
  - intros [Hm Hin]. by split.
  - intros [Hin Hm]. split; [by apply Hm|done].
Qed.

Lemma elem_of_network_step n l a :
  a ∈ network_step n l ↔
  a ∈ l ∧ (n ≠ "" → String_of_nullable (Article.networkId a) = n).
Proof.
  unfold network_step. destruct (truthy_str n) eqn:E.
  - apply truthy_str_true in E. rewrite list_elem_of_filter. tauto.
  - apply truthy_str_false in E. tauto.
Qed.

Lemma elem_of_featured_step b l a :
  a ∈ featured_step b l ↔ a ∈ l ∧ (b = true → Article.featured a = true).
Proof.
  unfold featured_step. destruct b.
  - rewrite list_elem_of_filter. tauto.
  - split; [by intros ?; split|by intros [? _]].
Qed.

Lemma elem_of_filterArticles articles opts a :
  a ∈ filterArticles articles opts ↔ a ∈ articles ∧ passes opts a.
Proof.
  unfold filterArticles, passes.
  rewrite elem_of_featured_step, elem_of_network_step, elem_of_cats_step,
    elem_of_status_step, elem_of_search_step.
  destruct opts as [[q|] [s|] [sel|] [n|] [[|]|]]; simpl; naive_solver.
Qed.

Lemma search_step_sublist q l : search_step q l `sublist_of` l.
Proof. unfold search_step. case_match; [apply sublist_filter|done]. Qed.

Lemma status_step_sublist s l : status_step s l `sublist_of` l.
Proof. unfold status_step. case_match; [apply sublist_filter|done]. Qed.

Lemma cats_step_sublist sel l : cats_step sel l `sublist_of` l.
Proof. unfold cats_step. case_match; [done|apply sublist_filter]. Qed.

Lemma network_step_sublist n l : network_step n l `sublist_of` l.
Proof. unfold network_step. case_match; [apply sublist_filter|done]. Qed.

Lemma featured_step_sublist b l : featured_step b l `sublist_of` l.
Proof. unfold featured_step. case_match; [apply sublist_filter|done]. Qed.

Lemma filterArticles_sublist articles opts :
  filterArticles articles opts `sublist_of` articles.
Proof.
  unfold filterArticles.
  etrans; [apply featured_step_sublist|].
  etrans; [apply network_step_sublist|].
  etrans; [apply cats_step_sublist|].
  etrans; [apply status_step_sublist|apply search_step_sublist].
Qed.

(** X1. The filters of [filterArticles] compose by conjunction: the
    result keeps the order of the input, holds exactly the articles that
    satisfy every filter that is switched on, and is the intersection of
    the results of the five filters applied one at a time. *)
Theorem filters_compose_conjunctively (articles : list Article.t) (opts : Opts) :
  filterArticles articles opts `sublist_of` articles ∧
  (∀ a, a ∈ filterArticles articles opts ↔ a ∈ articles ∧ passes opts a) ∧
  (∀ a, a ∈ filterArticles articles opts ↔
        a ∈ filterArticles articles (only_search opts) ∧
        a ∈ filterArticles articles (only_status opts) ∧
        a ∈ filterArticles articles (only_categories opts) ∧
        a ∈ filterArticles articles (only_network opts) ∧
        a ∈ filterArticles articles (only_featured opts)).
Proof.
  split_and!; [apply filterArticles_sublist|apply elem_of_filterArticles|].
  intros a. rewrite !elem_of_filterArticles. unfold passes; simpl. naive_solver.
Qed.

End WithPlatform.

(** X2. The category filter selects by the same resolved ids as the
    dashboard counts: with a non-empty selection an article is kept exactly
    when one of the ids of [getArticleCategoryIds] is selected (so the
    legacy scalar counts when the list is missing or empty, also when it is
    0); filtering by one category keeps exactly the articles the pie counts
    under it; the empty selection keeps everything. *)
Theorem category_filter_uses_resolved_ids
    (sel : list string) (articles : list Article.t) :
  cats_step [] articles = articles ∧
  (sel ≠ [] →
   ∀ a, a ∈ cats_step sel articles ↔ a ∈ articles ∧ in_selection sel a) ∧
  (∀ k a, a ∈ cats_step [k] articles ↔
          a ∈ articles ∧
          0 < occurrences k (String_of <$> DashboardPage.getArticleCategoryIds a)).
Proof.
  split_and!; [done| |].
  - intros Hsel a. rewrite elem_of_cats_step. tauto.
  - intros k a. rewrite elem_of_cats_step, JsMapFacts.occurrences_pos.
    unfold in_selection. rewrite list_elem_of_fmap.
    setoid_rewrite list_elem_of_singleton. naive_solver.
Qed.

(** The expectations of articleFilters.test.ts on its fixture. *)
Example test_suite_filters :
  let ids opts := Article.id <$> @filterArticles AsciiHost.host fixture opts in
  ids (mkOpts None None (Some ["1"]) None None) = [INum 1; INum 4] ∧
  ids (mkOpts None None (Some ["2"; "3"]) None None) = [INum 1; INum 2; INum 3] ∧
  ids (mkOpts None None (Some ["999"]) None None) = [] ∧
  ids (mkOpts None None None (Some "10") None) = [INum 1; INum 3] ∧
  ids (mkOpts None (Some "published") (Some ["2"]) None None) = [INum 1; INum 2] ∧
  ids (mkOpts (Some "Tech") None None (Some "10") None) = [INum 3] ∧
  ids (mkOpts None (Some "published") None None (Some true)) = [INum 1].
Proof. by vm_compute. Qed.

(** Scenario 2 of the specification. *)
Example scenario_2 :
  cats_step ["1"] [two_categories; legacy_politics; uncategorised]
  = [two_categories; legacy_politics].
Proof. by vm_compute. Qed.

End FilterFacts.

(** ** Sorting again: stability and sorted input *)

Module StableSortFacts.
Import Js JsFacts.

Section Sorting.
Context {A : Type} (cmp : A → A → Z).

Lemma sort_insert_split x l :
  ∃ l1 l2, l = l1 ++ l2 ∧ sort_insert cmp x l = l1 ++ x :: l2 ∧
           ∀ y, y ∈ l1 → 0 < cmp x y.
Proof.
  induction l as [|y l IH]; simpl.
  - exists [], []. split_and!; [done|done|]. by intros y ?%elem_of_nil.
  - destruct (0 <? cmp x y) eqn:E.
    + apply Z.ltb_lt in E. destruct IH as (l1 & l2 & -> & -> & Hl1).
      exists (y :: l1), l2. split_and!; [done|done|].
      intros z [->|Hz]%elem_of_cons; [done|by apply Hl1].
    + exists [], (y :: l). split_and!; [done|done|]. by intros z ?%elem_of_nil.
Qed.

Lemma filter_none (P : A → Prop) `{∀ x, Decision (P x)} l :
  (∀ y, y ∈ l → ¬ P y) → filter P l = [].
Proof.
  induction l as [|y l IH]; intros Hno; [done|].
  rewrite filter_cons, decide_False by (apply Hno; by left).
  apply IH. intros z Hz. apply Hno. by right.
Qed.

Lemma filter_sort_insert (P : A → Prop) `{∀ x, Decision (P x)} x l :
  (∀ y, P x → P y → cmp x y ≤ 0) →
  filter P (sort_insert cmp x l) = filter P (x :: l).
Proof.
  intros Htie. destruct (sort_insert_split x l) as (l1 & l2 & -> & -> & Hl1).
  rewrite filter_app, !filter_cons, filter_app.
  destruct (decide (P x)) as [Hx|Hx]; [|done].
  assert (filter P l1 = []) as ->; [|done].
  apply filter_none. intros y Hin Hy.
  specialize (Hl1 y Hin). specialize (Htie y Hx Hy). lia.
Qed.

(** Elements that the comparator never puts one after the other keep
    their order. *)
Lemma sort_by_stable (P : A → Prop) `{∀ x, Decision (P x)} l :
  (∀ y z, P y → P z → cmp y z ≤ 0) →
  filter P (sort_by cmp l) = filter P l.
Proof.
  intros Htie. induction l as [|x l IH]; [done|].
  simpl. fold (sort_by cmp l).
  rewrite filter_sort_insert by (intros; by apply Htie).
  by rewrite !filter_cons, IH.
Qed.

Lemma sort_by_sorted_id l :
  StronglySorted (not_after cmp) l → sort_by cmp l = l.
Proof.
  induction 1 as [|x l Hs IH Hx]; [done|].
  simpl. fold (sort_by cmp l). rewrite IH.
  destruct l as [|y l]; [done|]. simpl.
  apply Forall_cons in Hx as [Hxy _]. unfold not_after in Hxy.
  by rewrite (proj2 (Z.ltb_ge _ _)).
Qed.

End Sorting.
End StableSortFacts.

(** ** The page pipeline: filter, sort, paginate *)

Module PipelineFacts.
Import Js Spec Terms ArticlesPage Samples MoreSamples JsFacts SortFacts
  FilterFacts StableSortFacts.

Lemma filtered_unfold `{Platform} f allArticles :
  filtered f allArticles
  = sortArticles (filterArticles allArticles (opts_of f)) (sortCol f) (sortDir f).
Proof. reflexivity. Qed.

Lemma localeCompare_refl `{LocaleOrder} k : localeCompare k k = 0.
Proof. pose proof (localeCompare_flip k k). lia. Qed.

(** X3. The [filtered] memo of the page is the result of the filter
    chain, sorted: it is a rearrangement of [filterArticles] on the same
    options, holds exactly the articles of the collection that satisfy
    every active filter, is ordered by the comparator of the chosen column
    and direction, and sorting it again changes nothing. *)
Theorem filtered_is_the_sorted_filter_result
    `{LocaleOrder} (f : Filters) (allArticles : list Article.t) :
  filtered f allArticles ≡ₚ filterArticles allArticles (opts_of f) ∧
  (∀ a, a ∈ filtered f allArticles ↔ a ∈ allArticles ∧ passes (opts_of f) a) ∧
  StronglySorted (not_after (compare_articles (sortCol f) (sortDir f)))
    (filtered f allArticles) ∧
  sortArticles (filtered f allArticles) (sortCol f) (sortDir f)
    = filtered f allArticles.
Proof.
  rewrite !filtered_unfold. split_and!.
  - apply sortArticles_Permutation.
  - intros a. by rewrite sortArticles_Permutation, elem_of_filterArticles.
  - apply sortArticles_sorted.
  - apply sort_by_sorted_id, sortArticles_sorted.
Qed.

Lemma filtered_is_the_sorted_filter_result_witness :
  @filtered AsciiHost.host (mkFilters "a" "" [] "" false col_title desc)
     [climate; tech]
  ≡ₚ @filterArticles AsciiHost.host [climate; tech]
       (opts_of (mkFilters "a" "" [] "" false col_title desc)).
Proof.
  exact (proj1 (@filtered_is_the_sorted_filter_result AsciiHost.host ascii_host_order
                  (mkFilters "a" "" [] "" false col_title desc) [climate; tech])).
Defined.

(** X4. The sort is stable in both directions: the articles that share
    a sort key come out in the order in which they came in. *)
Theorem sortArticles_is_stable
    `{LocaleOrder} (c : list Article.t) (col : SortCol) (dir : SortDir) (k : string) :
  filter (λ a, sort_key col a = k) (sortArticles c col dir)
  = filter (λ a, sort_key col a = k) c.
Proof.
  apply sort_by_stable. intros y z Hy Hz.
  unfold compare_articles. rewrite Hy, Hz.
  destruct dir; by rewrite localeCompare_refl.
Qed.

Lemma sortArticles_is_stable_witness :
  filter (λ a, sort_key col_status a = "draft")
    (@sortArticles AsciiHost.host sample_articles col_status desc)
  = filter (λ a, sort_key col_status a = "draft") sample_articles.
Proof.
  exact (@sortArticles_is_stable AsciiHost.host ascii_host_order
           sample_articles col_status desc "draft").
Defined.

(** *** Pagination *)

Lemma paginated_lookup (l : list Article.t) page i :
  (i < PAGE_SIZE)%nat →
  paginated l page !! i = l !! (page * PAGE_SIZE + i)%nat.
Proof.
  intros Hi. unfold paginated. rewrite lookup_take, lookup_drop.
  by rewrite decide_True.
Qed.

Lemma pages_concat (l : list Article.t) n :
  mjoin (paginated l <$> seq 0 n) = take (n * PAGE_SIZE) l.
Proof.
  induction n as [|n IH]; [done|].
  rewrite seq_S, fmap_app, join_app, IH. csimpl. rewrite app_nil_r.
  unfold paginated. rewrite take_take_drop. f_equal. unfold PAGE_SIZE. lia.
Qed.

(** X5. The pages cut the list into consecutive runs of [PAGE_SIZE]:
    a page never holds more than [PAGE_SIZE] rows, row [i] of page [p] is
    element [p * PAGE_SIZE + i] of the list, a page past the end is empty
    (never an error), a page that lies wholly inside the list is full, and
    the first [n] pages put end to end are the first [n * PAGE_SIZE]
    elements, the whole list once [n] pages reach its end. *)
Theorem pages_cover_the_list_once (l : list Article.t) :
  (∀ page, length (paginated l page) ≤ PAGE_SIZE)%nat ∧
  (∀ page i, (i < PAGE_SIZE)%nat →
             paginated l page !! i = l !! (page * PAGE_SIZE + i)%nat) ∧
  (∀ page, (length l ≤ page * PAGE_SIZE)%nat → paginated l page = []) ∧
  (∀ page, ((page + 1) * PAGE_SIZE ≤ length l)%nat →
           length (paginated l page) = PAGE_SIZE) ∧
  (∀ n, mjoin (paginated l <$> seq 0 n) = take (n * PAGE_SIZE) l) ∧
  (∀ n, (length l ≤ n * PAGE_SIZE)%nat → mjoin (paginated l <$> seq 0 n) = l).
Proof.
  split_and!.
  - intros page. unfold paginated. rewrite length_take. lia.
  - apply paginated_lookup.
  - intros page Hge. unfold paginated. by rewrite drop_ge.
  - intros page Hle. unfold paginated. rewrite length_take, length_drop.
    unfold PAGE_SIZE in *. lia.
  - apply pages_concat.
  - intros n Hge. rewrite pages_concat. by apply take_ge.
Qed.

End PipelineFacts.

(** ** The bulk selection of the article list *)

Module SelectionFacts.
#[local] Set Warnings "-clear-no-such-hyp".
Import Js ArticlesPage.

Lemma elem_of_delete_all (s : gset string) ids x :
  x ∈ foldl (λ next id, next ∖ {[id]}) s ids ↔ x ∈ s ∧ x ∉ ids.
Proof.
  revert s. induction ids as [|id ids IH]; intros s; simpl.
  - set_solver.
  - rewrite IH. set_solver.
Qed.

Lemma elem_of_add_all (s : gset string) ids x :
  x ∈ foldl (λ next id, {[id]} ∪ next) s ids ↔ x ∈ s ∨ x ∈ ids.
Proof.
  revert s. induction ids as [|id ids IH]; intros s; simpl.
  - set_solver.
  - rewrite IH. set_solver.
Qed.

Lemma allSelected_true (s : gset string) ids :
  allSelected s ids = true ↔ ids ≠ [] ∧ ∀ id, id ∈ ids → id ∈ s.
Proof.
  unfold allSelected.
  rewrite andb_true_iff, !bool_decide_eq_true, Forall_forall.
  destruct ids; simpl; split; intros [? ?]; split; try done; lia.
Qed.

Lemma allSelected_false (s : gset string) ids :
  allSelected s ids = false ↔ ids = [] ∨ ∃ id, id ∈ ids ∧ id ∉ s.
Proof.
  rewrite <- not_true_iff_false, allSelected_true. split.
  - intros Hn. destruct ids as [|i ids]; [by left|right].
    destruct (decide (Forall (λ id, id ∈ s) (i :: ids))) as [Hall|Hex].
    + destruct Hn. split; [done|]. by rewrite Forall_forall in Hall.
    + apply not_Forall_Exists in Hex; [|apply _].
      apply Exists_exists in Hex as (id & ? & ?). by exists id.
  - intros [-> | (id & Hin & Hnot)] [Hne Hall]; [done|]. by apply Hnot, Hall.
Qed.

(** X6. [toggleAll] touches the ids of the current page only: when
    every row of the page is selected it unselects them all, otherwise it
    selects them all (after which the page counts as fully selected); ids
    of other pages keep their state; on an empty page it does nothing.  The
    "some selected" and "all selected" indicators never hold together. *)
Theorem toggleAll_selects_or_clears_the_page
    (prev : gset string) (allPageIds : list string) :
  let next := toggleAll prev allPageIds in
  (∀ id, id ∉ allPageIds → (id ∈ next ↔ id ∈ prev)) ∧
  (allSelected prev allPageIds = true → ∀ id, id ∈ allPageIds → id ∉ next) ∧
  (allSelected prev allPageIds = false → ∀ id, id ∈ allPageIds → id ∈ next) ∧
  (allPageIds ≠ [] → allSelected prev allPageIds = false →
   allSelected next allPageIds = true) ∧
  (allSelected prev allPageIds = true →
   allSelected next allPageIds = false ∧ someSelected next allPageIds = false) ∧
  (allPageIds = [] → next = prev ∧ allSelected prev allPageIds = false) ∧
  (someSelected prev allPageIds = true → allSelected prev allPageIds = false).
Proof.
  intros next. subst next. unfold toggleAll, toggleAll_update.
  destruct (allSelected prev allPageIds) eqn:Hall; split_and!; try done.
  - intros id Hid. rewrite elem_of_delete_all. tauto.
  - intros _ id Hid. rewrite elem_of_delete_all. tauto.
  - intros _. apply allSelected_true in Hall as [Hne Hall].
    assert (allSelected (foldl (λ next id, next ∖ {[id]}) prev allPageIds) allPageIds
            = false) as Hnone.
    { apply allSelected_false. right. destruct allPageIds as [|i ids]; [done|].
      exists i. split; [by left|]. rewrite elem_of_delete_all.
      intros [_ Hn]. apply Hn. by left. }
    split; [done|]. unfold someSelected. rewrite Hnone, andb_true_r.
    apply bool_decide_eq_false. rewrite Exists_exists.
    intros (id & Hin & Hsel). apply elem_of_delete_all in Hsel as [_ ?]. done.
  - intros ->. by apply allSelected_true in Hall as [? _].
  - unfold someSelected. rewrite Hall. by rewrite andb_false_r.
  - intros id Hid. rewrite elem_of_add_all. tauto.
  - intros _ id Hid. rewrite elem_of_add_all. tauto.
  - intros Hne _. apply allSelected_true. split; [done|].
    intros id Hid. rewrite elem_of_add_all. tauto.
  - by intros ->.
Qed.

(** X7. [toggleOne] flips the membership of the one id and of no
    other, and toggling the same id twice restores the selection. *)
Theorem toggleOne_flips_one_id (prev : gset string) (id : string) :
  (id ∈ toggleOne prev id ↔ id ∉ prev) ∧
  (∀ other, other ≠ id → (other ∈ toggleOne prev id ↔ other ∈ prev)) ∧
  toggleOne (toggleOne prev id) id = prev.
Proof.
  assert (id ∈ toggleOne prev id ↔ id ∉ prev) as Hflip.
  { unfold toggleOne. case_decide; set_solver. }
  assert (∀ s other, other ≠ id → (other ∈ toggleOne s id ↔ other ∈ s)) as Hother.
  { intros s other Hne. unfold toggleOne. case_decide; set_solver. }
  split_and!; [done|by apply Hother|].
  apply set_eq. intros x. destruct (decide (x = id)) as [->|Hne].
  - unfold toggleOne at 1. case_decide as Hin.
    + apply Hflip in Hin. set_solver.
    + assert (id ∈ prev) by (apply dec_stable; by rewrite <- Hflip). set_solver.
  - by rewrite !Hother.
Qed.

End SelectionFacts.

(** ** Lookup tables built from a collection *)

Module LookupFacts.
Import Js Spec Terms ArticlesPage.
#[local] Set Warnings "-clear-no-such-hyp".

Section Table.
Context {A V : Type} (key : A → string) (val : A → V).

Lemma table_snoc l x m :
  table key val (l ++ [x]) m = <[key x := val x]> (table key val l m).
Proof. unfold table. by rewrite foldl_app. Qed.

Lemma table_lookup_None l m k :
  table key val l m !! k = None ↔ m !! k = None ∧ k ∉ key <$> l.
Proof.
  induction l as [|x l IH] using rev_ind.
  - csimpl. split; [intros ?; split; [done|apply not_elem_of_nil]|by intros [? _]].
  - rewrite table_snoc, fmap_app, not_elem_of_app. csimpl.
    rewrite lookup_insert_None, IH, list_elem_of_singleton. naive_solver.
Qed.

Lemma table_lookup_Some l k v :
  table key val l ∅ !! k = Some v → ∃ x, x ∈ l ∧ key x = k ∧ val x = v.
Proof.
  induction l as [|x l IH] using rev_ind; [done|].
  rewrite table_snoc. destruct (decide (key x = k)) as [<-|Hne].
  - rewrite lookup_insert_eq. intros [= <-]. exists x. set_solver.
  - rewrite lookup_insert_ne by done. intros (y & ? & ? & ?)%IH.
    exists y. set_solver.
Qed.

(** The entry of [x] is the one kept when no later element has its
    key. *)
Lemma table_lookup_last l1 x l2 m :
  key x ∉ key <$> l2 → table key val (l1 ++ x :: l2) m !! key x = Some (val x).
Proof.
  induction l2 as [|y l2 IH] using rev_ind; intros Hnot.
  - rewrite table_snoc. apply lookup_insert_eq.
  - rewrite fmap_app, not_elem_of_app in Hnot. destruct Hnot as [Hl2 Hy].
    rewrite app_comm_cons, app_assoc, table_snoc.
    rewrite lookup_insert_ne; [by apply IH|].
    intros E. apply Hy. rewrite <- E. apply list_elem_of_fmap_2. by left.
Qed.

Lemma table_lookup_NoDup l x :
  NoDup (key <$> l) → x ∈ l → table key val l ∅ !! key x = Some (val x).
Proof.
  intros Hnd (l1 & l2 & ->)%list_elem_of_split.
  apply table_lookup_last.
  rewrite fmap_app, fmap_cons in Hnd.
  apply NoDup_app in Hnd as (_ & _ & Hnd). by apply NoDup_cons in Hnd as [? _].
Qed.

End Table.

Lemma buildCategoryMap_table categories :
  buildCategoryMap categories = table (String_of ∘ Category.id) id categories ∅.
Proof. reflexivity. Qed.

Lemma networkMap_table networks :
  networkMap networks = table (String_of ∘ Network.id) id networks ∅.
Proof. reflexivity. Qed.

(** X8. [buildCategoryMap] holds only categories of the list, each
    under its own string id; an id that no category has is missing; of
    several categories with one id the last is kept; and when the ids are
    distinct every category is found under its id, so that an article whose
    list starts with that id resolves to that category. *)
Theorem buildCategoryMap_finds_each_category (categories : list Category.t) :
  (∀ k c, buildCategoryMap categories !! k = Some c →
          c ∈ categories ∧ String_of (Category.id c) = k) ∧
  (∀ k, buildCategoryMap categories !! k = None ↔
        k ∉ String_of ∘ Category.id <$> categories) ∧
  (∀ before c after,
      categories = before ++ c :: after →
      String_of (Category.id c) ∉ String_of ∘ Category.id <$> after →
      buildCategoryMap categories !! String_of (Category.id c) = Some c) ∧
  (NoDup (String_of ∘ Category.id <$> categories) →
   ∀ c, c ∈ categories →
        buildCategoryMap categories !! String_of (Category.id c) = Some c ∧
        ∀ article rest,
          Article.categoryIds article = Some (Category.id c :: rest) →
          resolveCategory article (buildCategoryMap categories) = Some c).
Proof.
  rewrite buildCategoryMap_table. split_and!.
  - intros k c (x & Hin & Hk & Hv)%table_lookup_Some. simpl in *. by subst.
  - intros k. rewrite table_lookup_None, lookup_empty. tauto.
  - intros before c after -> Hnot.
    by apply (table_lookup_last (String_of ∘ Category.id) id).
  - intros Hnd c Hin.
    pose proof (table_lookup_NoDup (String_of ∘ Category.id) id _ _ Hnd Hin) as Hc.
    split; [done|]. intros article rest E.
    unfold resolveCategory, ids_of. rewrite E. csimpl. exact Hc.
Qed.

(** X9. The network of a table row: the network embedded in the
    article wins; without it a truthy network id is looked up in
    [networkMap] (and finds the listed network with that id when ids are
    distinct, nothing when no network has it); a network id that is 0, empty
    or absent gives no network. *)
Theorem row_network_precedence
    (article : Article.t) (networks : list Network.t) :
  (∀ n, Article.network article = Val n →
        row_network article (networkMap networks) = Some n) ∧
  (present (Article.network article) = None →
   (∀ v, Article.networkId article = Val v → truthy v = true →
         row_network article (networkMap networks)
         = networkMap networks !! String_of v) ∧
   (∀ v n, Article.networkId article = Val v → truthy v = true →
           NoDup (String_of ∘ Network.id <$> networks) → n ∈ networks →
           String_of (Network.id n) = String_of v →
           row_network article (networkMap networks) = Some n) ∧
   (∀ v, Article.networkId article = Val v →
         String_of v ∉ String_of ∘ Network.id <$> networks →
         row_network article (networkMap networks) = None) ∧
   (∀ v, Article.networkId article = Val v → truthy v = false →
         row_network article (networkMap networks) = None) ∧
   (present (Article.networkId article) = None →
    row_network article (networkMap networks) = None)).
Proof.
  unfold row_network. split; [by intros n ->|].
  intros Hnet.
  assert (∀ X : option Network.t,
            match Article.network article with Val n => Some n | _ => X end = X) as Hskip.
  { intros X. by destruct (Article.network article). }
  rewrite Hskip. split_and!.
  - by intros v -> ->.
  - intros v n -> -> Hnd Hin E. rewrite <- E, networkMap_table.
    by apply (table_lookup_NoDup (String_of ∘ Network.id) id).
  - intros v -> Hnot. destruct (truthy v); [|done].
    rewrite networkMap_table. apply table_lookup_None. by rewrite lookup_empty.
  - by intros v -> ->.
  - intros Hid. by destruct (Article.networkId article).
Qed.

End LookupFacts.

(** ** The message of a rejected request *)

Module RejectionFacts.
Import Js Interceptor.
#[local] Set Warnings "-clear-no-such-hyp".

(** X10. The error handed to the callers always carries a non-empty
    message: the [message] of the response body when it is non-empty, else
    the transport's message when it is non-empty, else the fallback
    text. *)
Theorem rejection_message_is_never_empty (error : AxiosError) :
  err_message (on_rejected error) ≠ "" ∧
  (∀ m, response error ≫= data_message = Some m → m ≠ "" →
        err_message (on_rejected error) = m) ∧
  (∀ m, (response error ≫= data_message = None ∨
         response error ≫= data_message = Some "") →
        message error = Some m → m ≠ "" →
        err_message (on_rejected error) = m) ∧
  ((response error ≫= data_message = None ∨
    response error ≫= data_message = Some "") →
   (message error = None ∨ message error = Some "") →
   err_message (on_rejected error) = fallback_message).
Proof.
  unfold on_rejected, or_else; simpl.
  destruct (response error ≫= data_message) as [[|c1 s1]|];
    destruct (message error) as [[|c2 s2]|]; simpl;
    split_and!; try done; intros; repeat case_match; naive_solver.
Qed.

End RejectionFacts.

(** ** The delete pre-checks of the category and network pages *)

Module PrecheckFacts.
Import Js Spec Terms Samples MoreSamples JsMapFacts DashboardFacts.
#[local] Set Warnings "-clear-no-such-hyp".

Lemma fold_article_ids m articles :
  foldl (λ map a, foldl (λ map id, JsMap.bump id map) map
                    (CategoriesPage.article_ids a)) m articles
  = foldl (λ m key, JsMap.bump key m) m (reference_keys articles).
Proof.
  revert m. induction articles as [|a articles IH]; intros m; [done|].
  unfold reference_keys. csimpl. rewrite foldl_app. apply IH.
Qed.

Lemma count_articleCountByCategory articles k :
  count_of (CategoriesPage.articleCountByCategory articles) k
  = occurrences k (reference_keys articles).
Proof.
  unfold CategoriesPage.articleCountByCategory.
  rewrite fold_article_ids. apply count_bump_all.
Qed.

Lemma reference_keys_app l1 l2 :
  reference_keys (l1 ++ l2) = reference_keys l1 ++ reference_keys l2.
Proof. unfold reference_keys. apply bind_app. Qed.

Lemma elem_of_reference_keys k articles :
  k ∈ reference_keys articles ↔
  ∃ a, a ∈ articles ∧ k ∈ CategoriesPage.article_ids a.
Proof. unfold reference_keys. rewrite list_elem_of_bind. naive_solver. Qed.

(** X11. The delete pre-check of the category page: with [n] the number
    of times the category's id occurs among the ids the page reads from the
    articles, a request to delete is refused when [n > 0] (a warning that
    names [n]; the confirmation dialog is not opened) and opens the
    confirmation dialog, leaving the notification alone, when [n = 0];
    [n > 0] exactly when some article refers to the category. *)
Theorem category_delete_precheck
    (articles : list Article.t) (cat : Category.t) (st : CategoriesPage.State) :
  let n := occurrences (String_of (Category.id cat)) (reference_keys articles) in
  (0 < n ↔ ∃ a, a ∈ articles ∧
                String_of (Category.id cat) ∈ CategoriesPage.article_ids a) ∧
  (0 < n →
   CategoriesPage.handleDeleteRequest articles cat st
   = {| CategoriesPage.confirmDelete := CategoriesPage.confirmDelete st;
        CategoriesPage.snack :=
          Some {| msg := CategoriesPage.refusal n; sev := warning |} |}) ∧
  (n = 0 →
   CategoriesPage.handleDeleteRequest articles cat st
   = {| CategoriesPage.confirmDelete := Some cat;
        CategoriesPage.snack := CategoriesPage.snack st |}).
Proof.
  intros n. subst n. unfold CategoriesPage.handleDeleteRequest.
  fold (count_of (CategoriesPage.articleCountByCategory articles)
          (String_of (Category.id cat))).
  rewrite count_articleCountByCategory. split_and!.
  - by rewrite occurrences_pos, elem_of_reference_keys.
  - intros Hpos. by rewrite (proj2 (Z.ltb_lt _ _) Hpos).
  - intros ->. done.
Qed.

(** X12. An article with an empty category list and a legacy scalar is
    invisible to the delete pre-check of the category page (the empty list
    is not nullish, so the scalar is never read): adding such an article
    does not change the outcome of a delete request, although the dashboard
    counts the article under the scalar. *)
Theorem empty_list_hides_the_scalar_from_the_precheck
    (a : Article.t) (v : Id) (before after : list Article.t)
    (cat : Category.t) (st : CategoriesPage.State) :
  Article.categoryIds a = Some [] →
  Article.categoryId a = Val v →
  CategoriesPage.article_ids a = [] ∧
  CategoriesPage.handleDeleteRequest (before ++ a :: after) cat st
  = CategoriesPage.handleDeleteRequest (before ++ after) cat st ∧
  DashboardPage.getArticleCategoryIds a = [v] ∧
  count_of (DashboardPage.catCountMap (before ++ a :: after)) (String_of v)
  = count_of (DashboardPage.catCountMap (before ++ after)) (String_of v) + 1.
Proof.
  intros Hlist Hscalar.
  assert (CategoriesPage.article_ids a = []) as Hids.
  { unfold CategoriesPage.article_ids. by rewrite Hlist. }
  assert (DashboardPage.getArticleCategoryIds a = [v]) as Hdash.
  { unfold DashboardPage.getArticleCategoryIds. by rewrite Hlist, Hscalar. }
  split_and!; [done| |done|].
  - unfold CategoriesPage.handleDeleteRequest.
    fold (count_of (CategoriesPage.articleCountByCategory (before ++ a :: after))
            (String_of (Category.id cat))).
    fold (count_of (CategoriesPage.articleCountByCategory (before ++ after))
            (String_of (Category.id cat))).
    rewrite !count_articleCountByCategory, !reference_keys_app.
    replace (reference_keys (a :: after)) with (reference_keys after); [done|].
    unfold reference_keys. csimpl. by rewrite Hids.
  - rewrite catCountMap_insert_article, Hdash. csimpl.
    rewrite occurrences_cons, occurrences_nil, decide_True by done. lia.
Qed.

Lemma empty_list_hides_the_scalar_from_the_precheck_witness :
  CategoriesPage.handleDeleteRequest ([] ++ scalar_zero :: []) category_zero
    {| CategoriesPage.confirmDelete := None; CategoriesPage.snack := None |}
  = CategoriesPage.handleDeleteRequest ([] ++ []) category_zero
      {| CategoriesPage.confirmDelete := None; CategoriesPage.snack := None |}.
Proof.
  refine (proj1 (proj2 (empty_list_hides_the_scalar_from_the_precheck
            scalar_zero (INum 0) [] [] category_zero
            {| CategoriesPage.confirmDelete := None; CategoriesPage.snack := None |}
            _ _))); reflexivity.
Defined.

Lemma current_format_ids a :
  current_format a →
  CategoriesPage.article_ids a = String_of <$> DashboardPage.getArticleCategoryIds a.
Proof.
  unfold CategoriesPage.article_ids, DashboardPage.getArticleCategoryIds.
  intros [(c & cs & ->) | [-> Hscalar]]; [done|].
  destruct (Article.categoryId a) as [| |v]; try done.
  by rewrite (Hscalar v).
Qed.

(** X13. On articles in the current format the category page and the
    dashboard count alike: the two counting maps are equal, and a delete
    request is refused, with the dashboard's count in the message, exactly
    for the categories that have a count on the dashboard. *)
Theorem category_counts_agree_on_current_format (articles : list Article.t) :
  Forall current_format articles →
  CategoriesPage.articleCountByCategory articles = DashboardPage.catCountMap articles ∧
  ∀ cat st,
    (JsMap.get (DashboardPage.catCountMap articles) (String_of (Category.id cat)) = None →
     CategoriesPage.handleDeleteRequest articles cat st
     = {| CategoriesPage.confirmDelete := Some cat;
          CategoriesPage.snack := CategoriesPage.snack st |}) ∧
    (∀ n, JsMap.get (DashboardPage.catCountMap articles) (String_of (Category.id cat))
          = Some n →
          CategoriesPage.handleDeleteRequest articles cat st
          = {| CategoriesPage.confirmDelete := CategoriesPage.confirmDelete st;
               CategoriesPage.snack :=
                 Some {| msg := CategoriesPage.refusal n; sev := warning |} |}).
Proof.
  intros Hall.
  assert (reference_keys articles = category_keys articles) as Hkeys.
  { unfold reference_keys, category_keys.
    induction Hall as [|a articles Ha _ IH]; [done|].
    csimpl. by rewrite IH, current_format_ids. }
  assert (CategoriesPage.articleCountByCategory articles
          = DashboardPage.catCountMap articles) as Heq.
  { unfold CategoriesPage.articleCountByCategory, DashboardPage.catCountMap.
    by rewrite fold_article_ids, fold_count_categories, Hkeys. }
  split; [done|]. intros cat st.
  unfold CategoriesPage.handleDeleteRequest. rewrite Heq, get_catCountMap.
  pose proof (occurrences_nonneg (String_of (Category.id cat)) (category_keys articles)).
  case_decide as Hz; simpl.
  - split; [done|]. by intros n.
  - rewrite (proj2 (Z.ltb_lt 0 _)) by lia. split; [done|]. by intros n [= <-].
Qed.

Lemma category_counts_agree_on_current_format_witness :
  CategoriesPage.articleCountByCategory [two_categories; legacy_politics]
  = DashboardPage.catCountMap [two_categories; legacy_politics].
Proof.
  refine (proj1 (category_counts_agree_on_current_format
                   [two_categories; legacy_politics] _)).
  repeat first [apply Forall_nil_2 | apply Forall_cons_2].
  - left. by eexists _, _.
  - right. split; [done|]. by intros v [= <-].
Defined.

Lemma fold_count_article m articles :
  foldl NetworksPage.count_article m articles
  = foldl (λ m key, JsMap.bump key m) m (network_reference_keys articles).
Proof.
  revert m. induction articles as [|a articles IH]; intros m; [done|].
  simpl foldl. rewrite IH. unfold network_reference_keys, NetworksPage.count_article.
  csimpl. by destruct (Article.networkId a).
Qed.

Lemma elem_of_network_reference_keys k articles :
  k ∈ network_reference_keys articles ↔
  ∃ a v, a ∈ articles ∧ Article.networkId a = Val v ∧ String_of v = k.
Proof.
  unfold network_reference_keys. rewrite list_elem_of_omap. split.
  - intros (a & Hin & Hk). destruct (Article.networkId a) as [| |v] eqn:E; try done.
    injection Hk as <-. by exists a, v.
  - intros (a & v & Hin & E & <-). exists a. by rewrite E.
Qed.

(** X14. The delete pre-check of the network page: with [n] the number
    of articles whose network id is present (0 included) and has the
    network's string id, a request to delete is refused with a warning that
    names [n] when [n > 0], and opens the confirmation dialog when
    [n = 0]. *)
Theorem network_delete_precheck
    (articles : list Article.t) (net : Network.t) (st : NetworksPage.State) :
  let n := occurrences (String_of (Network.id net)) (network_reference_keys articles) in
  (0 < n ↔ ∃ a v, a ∈ articles ∧ Article.networkId a = Val v ∧
                  String_of v = String_of (Network.id net)) ∧
  (0 < n →
   NetworksPage.handleDeleteRequest articles net st
   = {| NetworksPage.confirmDelete := NetworksPage.confirmDelete st;
        NetworksPage.snack :=
          Some {| msg := NetworksPage.refusal n; sev := warning |} |}) ∧
  (n = 0 →
   NetworksPage.handleDeleteRequest articles net st
   = {| NetworksPage.confirmDelete := Some net;
        NetworksPage.snack := NetworksPage.snack st |}).
Proof.
  intros n. subst n. unfold NetworksPage.handleDeleteRequest.
  fold (count_of (NetworksPage.articleCountByNetwork articles)
          (String_of (Network.id net))).
  unfold NetworksPage.articleCountByNetwork.
  rewrite fold_count_article, count_bump_all. split_and!.
  - by rewrite occurrences_pos, elem_of_network_reference_keys.
  - intros Hpos. by rewrite (proj2 (Z.ltb_lt _ _) Hpos).
  - intros ->. done.
Qed.

End PrecheckFacts.

(** ** The aggregates of the dashboard as a whole *)

Module AggregateFacts.
Import Js Spec Terms DashboardPage Samples MoreSamples JsFacts JsMapFacts
  DashboardFacts StatsFacts.
#[local] Set Warnings "-clear-no-such-hyp".

Lemma total_count_set k v (m : JsMap.t Z) :
  total_count (JsMap.set k v m) = total_count m - count_of m k + v.
Proof.
  unfold total_count, count_of.
  induction m as [|[k0 v0] m IH]; csimpl; [lia|].
  destruct (decide (k0 = k)) as [->|Hne]; csimpl; [lia|]. rewrite IH. lia.
Qed.

Lemma total_count_bump_all keys (m : JsMap.t Z) :
  total_count (foldl (λ m key, JsMap.bump key m) m keys)
  = total_count m + Z.of_nat (length keys).
Proof.
  revert m. induction keys as [|k keys IH]; intros m; simpl; [lia|].
  rewrite IH. unfold JsMap.bump. rewrite total_count_set.
  unfold count_of. lia.
Qed.

Lemma sum_Permutation (l1 l2 : list Z) :
  l1 ≡ₚ l2 → foldr Z.add 0 l1 = foldr Z.add 0 l2.
Proof. induction 1; simpl; lia. Qed.

Lemma sum_app (l1 l2 : list Z) :
  foldr Z.add 0 (l1 ++ l2) = foldr Z.add 0 l1 + foldr Z.add 0 l2.
Proof. induction l1; simpl; lia. Qed.

Lemma sum_nonneg (l : list Z) : Forall (λ v, 0 ≤ v) l → 0 ≤ foldr Z.add 0 l.
Proof. induction 1; simpl; lia. Qed.




Lemma filter_all {A} (P : A → Prop) `{∀ x, Decision (P x)} l :
  Forall P l → filter P l = l.
Proof.
  induction 1 as [|x l Hx _ IH]; [done|].
  by rewrite filter_cons, decide_True, IH.
Qed.





Lemma networkMap_entry articles k v :
  (k, v) ∈ networkMap articles → 0 < v.
Proof.
  intros Hin. apply elem_of_get in Hin; [|apply networkMap_NoDup].
  rewrite get_networkMap in Hin.
  pose proof (occurrences_nonneg k (network_keys articles)).
  case_decide; [done|]. injection Hin as <-. lia.
Qed.

Lemma network_keys_length articles :
  (length (network_keys articles) ≤ length articles)%nat.
Proof.
  unfold network_keys. induction articles as [|a articles IH]; csimpl; [done|].
  destruct (network_key a); simpl; lia.
Qed.

(** X16. Every article is counted in at most one network group: the
    counts of all groups add up to the number of articles that have a
    label, hence to no more than the number of articles; the five groups
    shown add up to no more than that, and to exactly that when there are
    at most five groups. *)
Theorem network_groups_count_each_article_once (articles : list Article.t) :
  total_count (networkMap articles) = Z.of_nat (length (network_keys articles)) ∧
  total_count (networkMap articles) ≤ Z.of_nat (length articles) ∧
  total_count (byNetwork articles) ≤ total_count (networkMap articles) ∧
  ((length (networkMap articles) ≤ 5)%nat →
   total_count (byNetwork articles) = total_count (networkMap articles)).
Proof.
  assert (total_count (networkMap articles)
          = Z.of_nat (length (network_keys articles))) as Htotal.
  { unfold networkMap. rewrite fold_count_network, total_count_bump_all.
    unfold total_count. simpl. lia. }
  pose proof (network_keys_length articles) as Hlen.
  pose proof (sort_by_Permutation by_count_desc (JsMap.entries (networkMap articles)))
    as Hperm.
  rewrite byNetwork_split in Hperm. unfold JsMap.entries in Hperm.
  assert (total_count (networkMap articles)
          = total_count (byNetwork articles)
            + total_count (drop 5 (sort_by by_count_desc (networkMap articles)))) as Hsplit.
  { unfold total_count.
    rewrite <- (sum_Permutation _ _ (fmap_Permutation snd _ _ Hperm)).
    by rewrite fmap_app, sum_app. }
  split_and!; [done|lia| |].
  - assert (0 ≤ total_count (drop 5 (sort_by by_count_desc (networkMap articles)))); [|lia].
    apply sum_nonneg, Forall_forall. intros v ([k v'] & -> & Hin)%list_elem_of_fmap.
    assert ((k, v') ∈ networkMap articles) as Hin'.
    { rewrite <- Hperm. apply elem_of_app. by right. }
    apply networkMap_entry in Hin'. simpl. lia.
  - intros Hfew. rewrite Hsplit.
    rewrite drop_ge by (by rewrite sort_by_length). unfold total_count at 3. simpl. lia.
Qed.

Lemma status_contribution a :
  (if bool_decide (Article.status a = "published") then 1 else 0)
  + (if bool_decide (Article.status a = "draft") then 1 else 0)
  + (if bool_decide (Article.status a = "archived") then 1 else 0)
  = if decide (Article.ArticleStatus (Article.status a)) then 1 else 0.
Proof.
  unfold Article.ArticleStatus.
  destruct (decide (Article.status a = "published")) as [E|Hp].
  { rewrite E. by rewrite decide_True by (by right; left). }
  destruct (decide (Article.status a = "draft")) as [E|Hd].
  { rewrite E. by rewrite decide_True by (by left). }
  destruct (decide (Article.status a = "archived")) as [E|Ha].
  { rewrite E. by rewrite decide_True by (by right; right). }
  rewrite !bool_decide_eq_false_2 by done.
  rewrite decide_False; [done|]. intros [? | [? | ?]]; done.
Qed.

Lemma status_sum_le articles :
  count_where (λ a, bool_decide (Article.status a = "published")) articles
  + count_where (λ a, bool_decide (Article.status a = "draft")) articles
  + count_where (λ a, bool_decide (Article.status a = "archived")) articles
  ≤ Z.of_nat (length articles).
Proof.
  induction articles as [|b articles IH]; [done|].
  rewrite !count_where_cons. simpl length.
  pose proof (status_contribution b). case_decide; lia.
Qed.

(** X17. The counts of the dashboard are never negative; [featured]
    never exceeds [total]; the three status counts never add up to more than
    [total], and they add up to [total] exactly when every article has one
    of the three statuses. *)
Theorem status_counts_never_exceed_total
    (articles : list Article.t) (categories : list Category.t) :
  let s := stats articles categories in
  0 ≤ published s ∧ 0 ≤ draft s ∧ 0 ≤ archived s ∧
  0 ≤ featured s ≤ total s ∧
  published s + draft s + archived s ≤ total s ∧
  (published s + draft s + archived s = total s ↔
   Forall (λ a, Article.ArticleStatus (Article.status a)) articles).
Proof.
  intros s. subst s. simpl.
  assert (∀ p, 0 ≤ count_where p articles ≤ Z.of_nat (length articles)) as Hbound.
  { intros p. unfold count_where.
    pose proof (length_filter (λ a, p a = true) articles). lia. }
  split_and!; try apply Hbound; [apply status_sum_le|].
  clear Hbound. induction articles as [|a articles IH].
  { split; [by constructor|done]. }
  pose proof (status_sum_le articles) as Hle.
  rewrite !count_where_cons, Forall_cons. simpl length.
  pose proof (status_contribution a) as Hc.
  case_decide as Hst.
  - rewrite <- IH. split; [intros ?; split; [done|lia]|intros [_ ?]; lia].
  - split; [intros ?; lia|by intros [? _]].
Qed.

End AggregateFacts.

(** ** The latest notifications *)

Module NotificationFacts.
Import Js Spec Terms DashboardPage Samples MoreSamples JsFacts SortFacts.
#[local] Set Warnings "-clear-no-such-hyp".

Section WithPlatform.
Context `{LocaleOrder}.

Lemma newest_first_flip x y : 0 < newest_first x y → newest_first y x ≤ 0.
Proof. unfold newest_first. apply localeCompare_pos_flip. Qed.

Lemma newest_first_trans x y z :
  newest_first x y ≤ 0 → newest_first y z ≤ 0 → newest_first x z ≤ 0.
Proof. unfold newest_first. intros Hxy Hyz. by eapply localeCompare_trans. Qed.

(** X18. [recentNotifs] shows at most five notifications, all of the
    list, newest first by the date sent, or by the creation date when there
    is no date sent (the empty string when there is neither); no omitted
    notification is newer than one that is shown. *)
Theorem recentNotifs_are_the_newest_five (notifications : list Notification.t) :
  length (recentNotifs notifications) = (5 `min` length notifications)%nat ∧
  StronglySorted
    (λ x y, localeCompare (notif_date y) (notif_date x) ≤ 0)
    (recentNotifs notifications) ∧
  (∃ rest,
      notifications ≡ₚ recentNotifs notifications ++ rest ∧
      ∀ x y, x ∈ recentNotifs notifications → y ∈ rest →
             localeCompare (notif_date y) (notif_date x) ≤ 0) ∧
  (∀ n d, Notification.sentAt n = Val d → notif_date n = d) ∧
  (∀ n, present (Notification.sentAt n) = None →
        notif_date n = default "" (Notification.createdAt n)).
Proof.
  pose proof (sort_by_sorted newest_first newest_first_flip newest_first_trans
                notifications) as Hsorted.
  pose proof (sort_by_Permutation newest_first notifications) as Hperm.
  rewrite <- (take_drop 5 (sort_by newest_first notifications)) in Hsorted, Hperm.
  fold (recentNotifs notifications) in Hsorted, Hperm.
  apply StronglySorted_app in Hsorted as (Hcross & Htop & _).
  split_and!.
  - unfold recentNotifs. by rewrite length_take, sort_by_length.
  - exact Htop.
  - eexists. split; [by rewrite Hperm|]. intros x y Hx Hy. by apply Hcross.
  - intros n d E. unfold notif_date. by rewrite E.
  - intros n E. unfold notif_date. by destruct (Notification.sentAt n).
Qed.

End WithPlatform.

Lemma recentNotifs_are_the_newest_five_witness :
  length (@recentNotifs AsciiHost.host six_notifications) = 5%nat.
Proof.
  exact (proj1 (@recentNotifs_are_the_newest_five AsciiHost.host ascii_host_order
                  six_notifications)).
Defined.

Example recentNotifs_sent_date_first :
  Notification.id <$> @recentNotifs AsciiHost.host six_notifications
  = [INum 6; INum 2; INum 5; INum 4; INum 3].
Proof. by vm_compute. Qed.

End NotificationFacts.

(** ** The category and network fields of the article form *)

Module FormFacts.
Import Js Spec Terms ArticleFormPage Samples MoreSamples.
#[local] Set Warnings "-clear-no-such-hyp".

Lemma find_category_Some categories id c :
  find_category categories id = Some c →
  c ∈ categories ∧ String_of (Category.id c) = id.
Proof.
  unfold find_category.
  destruct (list_find _ categories) as [[i c']|] eqn:E; [|done].
  simpl. intros [= <-]. apply list_find_Some in E as (Hi & Hc & _).
  split; [by eapply list_elem_of_lookup_2|done].
Qed.

Lemma find_category_first categories id :
  id ∈ String_of ∘ Category.id <$> categories → is_Some (find_category categories id).
Proof.
  intros (c & -> & Hin)%list_elem_of_fmap. unfold find_category.
  destruct (list_find (λ c0, String_of (Category.id c0) = (String_of ∘ Category.id) c)
              categories) as [[i c']|] eqn:E; [by eexists|].
  apply list_find_None in E. rewrite Forall_forall in E. by destruct (E c Hin).
Qed.

Lemma find_category_None categories id :
  id ∉ String_of ∘ Category.id <$> categories → find_category categories id = None.
Proof.
  intros Hnot. destruct (find_category categories id) as [c|] eqn:E; [|done].
  apply find_category_Some in E as [Hin <-]. destruct Hnot.
  by apply (list_elem_of_fmap_2 (String_of ∘ Category.id)).
Qed.

Lemma selected_ids categories ids :
  String_of <$> payload_categoryIds (omap (find_category categories) ids)
  = filter (λ id, id ∈ String_of ∘ Category.id <$> categories) ids.
Proof.
  induction ids as [|id ids IH]; [done|].
  csimpl. rewrite filter_cons.
  destruct (decide (id ∈ String_of ∘ Category.id <$> categories)) as [Hin|Hnot].
  - destruct (find_category_first _ _ Hin) as [c Hc]. rewrite Hc. csimpl.
    apply find_category_Some in Hc as [_ ->]. f_equal. apply IH.
  - rewrite (find_category_None _ _ Hnot). apply IH.
Qed.

(** X19. Opening an article in the form and building the payload from
    the untouched fields gives back, as strings, the article's category ids
    that name a listed category, in their order: all of them when every id
    is known.  Only listed categories are selected.  The network field is
    the string of a truthy network id and empty ([null]) for an id that is
    0, empty or absent. *)
Theorem form_keeps_the_known_categories
    (article : Article.t) (categories : list Category.t) :
  String_of <$> payload_categoryIds (selectedCats article categories)
  = filter (λ id, id ∈ String_of ∘ Category.id <$> categories) (catIds article) ∧
  ((∀ id, id ∈ catIds article → id ∈ String_of ∘ Category.id <$> categories) →
   String_of <$> payload_categoryIds (selectedCats article categories)
   = catIds article) ∧
  (∀ c, c ∈ selectedCats article categories → c ∈ categories) ∧
  (∀ v, Article.networkId article = Val v → truthy v = true →
        form_networkId article = Some (String_of v)) ∧
  (∀ v, Article.networkId article = Val v → truthy v = false →
        form_networkId article = None) ∧
  (present (Article.networkId article) = None → form_networkId article = None).
Proof.
  unfold selectedCats. split_and!.
  - apply selected_ids.
  - intros Hknown. rewrite selected_ids.
    apply AggregateFacts.filter_all, Forall_forall, Hknown.
  - intros c (id & _ & Hc)%list_elem_of_omap. by apply find_category_Some in Hc as [? _].
  - intros v E Hv. unfold form_networkId. by rewrite E, Hv.
  - intros v E Hv. unfold form_networkId. by rewrite E, Hv.
  - intros E. unfold form_networkId. by destruct (Article.networkId article).
Qed.

Example form_round_trip :
  payload_categoryIds
    (selectedCats two_categories
       [Category.mk (INum 3) "Tech" None; Category.mk (INum 1) "Politics" None])
  = [INum 1; INum 3].
Proof. by vm_compute. Qed.

End FormFacts.

(** ** The paginated list response *)

Module PaginatedFacts.
Import Js Api Spec Terms.
#[local] Set Warnings "-clear-no-such-hyp".

(** X20. [getArticlesPaginated] on a response body: an object with a
    [data] property is returned as received, and when that property is an
    array it is the array [toArray] extracts; any other body gives the
    items of [toArray] with [total] their number, [page] defaulting to 1
    (a page 0 is kept) and [limit] to 20. *)
Theorem paginated_response_agrees_with_toArray
    (data : option Json) (params : ArticleQueryParams.t) :
  match getArticlesPaginated data params with
  | Built items total page limit =>
      items = (toArray data).1 ∧
      total = Z.of_nat (length items) ∧
      page = default 1 (ArticleQueryParams.page params) ∧
      limit = default 20 (ArticleQueryParams.limit params) ∧
      (∀ props, data = Some (JObj props) → get_prop props "data" = None)
  | AsReceived props =>
      data = Some (JObj props) ∧
      ∃ v, get_prop props "data" = Some v ∧
           ∀ items, v = JArr items → toArray data = (items, false)
  end.
Proof.
  unfold getArticlesPaginated.
  destruct data as [[| | | |items|props]|]; try (by split_and!).
  unfold has_prop. case_bool_decide as Hd.
  - split; [done|]. destruct Hd as [v Hv]. exists v. split; [done|].
    intros items ->. unfold toArray, envelope_keys, first_array. by rewrite Hv.
  - split_and!; try done. intros props' [= <-].
    destruct (get_prop props "data") eqn:E; [|done]. destruct Hd. by eexists.
Qed.

Example bare_array_is_one_page :
  getArticlesPaginated (Some (JArr [JNum 1; JNum 2]))
    (ArticleQueryParams.mk (Some 0) None None None None Undefined None None None)
  = Built [JNum 1; JNum 2] 2 0 20.
Proof. reflexivity. Qed.

End PaginatedFacts.
